(** * Soft robotic flower (bloom.ino): behaviour engine

    A shallow embedding of the Arduino sketch [bloom.ino]: the waveform
    generators, the two pressure regulators, the roulette-wheel mode sampler,
    the per-mode behaviours and the [loop] driver, followed by the properties
    established about them.

    Numeric model.  On the ATmega328P [float] is IEEE-754 binary32, [int] is
    16 bits and [long] is 32 bits.  Floats are modelled exactly with the
    Standard Library's [SpecFloat] at precision 24 and maximal exponent 128;
    integers are [Z] with the wrap-around written out.  Operations whose
    behaviour C leaves undefined (a float-to-integer conversion out of range,
    a remainder by zero) make the embedded program fail ([None]). *)

From Stdlib Require Import ZArith List Bool Lia String.
From Stdlib Require Import Floats.SpecFloat.
Import ListNotations.

Local Open Scope Z_scope.

(* ================================================================== *)
(** ** binary32 arithmetic *)

Module F32.

Definition prec : Z := 24.
Definition emax : Z := 128.

Definition float : Type := spec_float.

(** [(float) z] for an integer [z]: rounded to nearest-even. *)
Definition of_int (z : Z) : float := binary_normalize prec emax z 0 false.

Definition add : float -> float -> float := SFadd prec emax.
Definition sub : float -> float -> float := SFsub prec emax.
Definition mul : float -> float -> float := SFmul prec emax.
Definition div : float -> float -> float := SFdiv prec emax.
Definition ltb : float -> float -> bool := SFltb.
Definition leb : float -> float -> bool := SFleb.
Definition abs : float -> float := SFabs.
Definition valid : float -> bool := valid_binary prec emax.

(** A decimal literal [n/d] (such as [0.85f] = 85/100): numerator and
    denominator are exact in binary32, and the correctly rounded quotient
    is the correctly rounded literal. *)
Definition lit (n d : Z) : float := div (of_int n) (of_int d).

(** Truncation toward zero of a finite float; [None] for NaN and the
    infinities. *)
Definition trunc (x : float) : option Z :=
  match x with
  | S754_zero _ => Some 0
  | S754_finite s m e =>
      Some (cond_Zopp s (if e <? 0 then Z.pos m / 2 ^ (- e) else Z.pos m * 2 ^ e))
  | S754_infinity _ | S754_nan => None
  end.

(** Conversion to an integer type with values in [[lo, hi]]: undefined
    when the truncated value does not fit. *)
Definition to_range (lo hi : Z) (x : float) : option Z :=
  match trunc x with
  | Some z => if (lo <=? z) && (z <=? hi) then Some z else None
  | None => None
  end.

Definition to_long : float -> option Z := to_range (- 2 ^ 31) (2 ^ 31 - 1).
Definition to_ulong : float -> option Z := to_range 0 (2 ^ 32 - 1).
Definition to_uint8 : float -> option Z := to_range 0 255.
Definition to_int : float -> option Z := to_range (- 2 ^ 15) (2 ^ 15 - 1).

(** [floorf]: the largest integral float not above [x]. *)
Definition floor (x : float) : float :=
  match x with
  | S754_finite s m e =>
      if e <? 0 then
        let q := Z.pos m / 2 ^ (- e) in
        let exact := Z.pos m mod 2 ^ (- e) =? 0 in
        if s then (if exact then x else of_int (- (q + 1)))
        else (if q =? 0 then S754_zero false else of_int q)
      else x
  | _ => x
  end.

End F32.

Declare Scope f32_scope.
Delimit Scope f32_scope with f32.
Bind Scope f32_scope with F32.float.
Infix "+" := F32.add : f32_scope.
Infix "-" := F32.sub : f32_scope.
Infix "*" := F32.mul : f32_scope.
Infix "/" := F32.div : f32_scope.
Infix "<?" := F32.ltb : f32_scope.
Infix "<=?" := F32.leb : f32_scope.

Abbreviation float := F32.float.

(* ================================================================== *)
(** ** Machine integers *)

(** Two's-complement wrap-around to [w] bits, signed and unsigned. *)
Definition wrap_signed (w : Z) (z : Z) : Z :=
  (z + 2 ^ (w - 1)) mod 2 ^ w - 2 ^ (w - 1).
Definition wrap_unsigned (w : Z) (z : Z) : Z := z mod 2 ^ w.

Definition to_int16 : Z -> Z := wrap_signed 16.
Definition to_int32 : Z -> Z := wrap_signed 32.
Definition to_uint8 : Z -> Z := wrap_unsigned 8.
Definition to_uint16 : Z -> Z := wrap_unsigned 16.
Definition to_uint32 : Z -> Z := wrap_unsigned 32.

(** [unsigned long] remainder: undefined for a zero divisor. *)
Definition urem (a b : Z) : option Z :=
  if b =? 0 then None else Some (a mod b).

(** The Arduino core's [map], in [long] arithmetic (division truncates
    toward zero):
    [(x - in_min) * (out_max - out_min) / (in_max - in_min) + out_min]. *)
Definition map (x in_min in_max out_min out_max : Z) : option Z :=
  if in_max - in_min =? 0 then None
  else Some (to_int32
               (to_int32 (Z.quot (to_int32 (to_int32 (x - in_min) * to_int32 (out_max - out_min)))
                                 (to_int32 (in_max - in_min)))
                + out_min)).

(* ================================================================== *)
(** ** Configuration, globals and the world the sketch runs in *)

Definition PIN_PUMP_BASE : Z := 6.
Definition PIN_VALVE_BASE : Z := 5.
Definition PIN_PUMP_LEAVES : Z := 11.
Definition PIN_VALVE_LEAVES : Z := 3.
Definition NUM_LEDS : Z := 16.

Inductive AnalogIn := A0 | A1 | A2.

Inductive State := NEUTRAL | CALM | CURIOUS | ANGRY | SAD.

Definition State_eqb (a b : State) : bool :=
  match a, b with
  | NEUTRAL, NEUTRAL | CALM, CALM | CURIOUS, CURIOUS | ANGRY, ANGRY | SAD, SAD => true
  | _, _ => false
  end.

Definition STATE_NAMES (s : State) : string :=
  match s with
  | NEUTRAL => "NEUTRAL" | CALM => "CALM" | CURIOUS => "CURIOUS"
  | ANGRY => "ANGRY" | SAD => "SAD"
  end.

Record Range := { lo : float; hi : float }.
Record RGB := { r : Z; g : Z; b : Z }.

(** What the sketch does to the outside, in the order it does it. *)
Inductive Event :=
| EvAnalogWrite (pin : Z) (val : Z)
| EvSetBrightness (brightness : Z)
| EvSetPixelColor (idx : Z) (c : RGB)
| EvShow
| EvMillis (t : Z)
| EvDelay (ms : Z)
| EvPrintln (name : string) (dwell : Z).

Record World := {
  (* globals of the sketch *)
  SPEED_FACTOR : float;
  current : State;
  stateEndMs : Z;
  lastUpdateMs : Z;
  prevDesiredPMiddle : float;
  ledChaseIndex : Z;
  (* environment: clock, ADC inputs, the raw pseudo-random stream *)
  clock : Z;
  adc : AnalogIn -> Z;
  rng : nat -> Z;
  rng_pos : nat;
  (* observable effects, oldest first *)
  trace : list Event
}.

Definition with_current (w : World) (s : State) : World :=
  {| SPEED_FACTOR := SPEED_FACTOR w; current := s; stateEndMs := stateEndMs w;
     lastUpdateMs := lastUpdateMs w; prevDesiredPMiddle := prevDesiredPMiddle w;
     ledChaseIndex := ledChaseIndex w; clock := clock w; adc := adc w; rng := rng w;
     rng_pos := rng_pos w; trace := trace w |}.

Definition with_stateEndMs (w : World) (t : Z) : World :=
  {| SPEED_FACTOR := SPEED_FACTOR w; current := current w; stateEndMs := t;
     lastUpdateMs := lastUpdateMs w; prevDesiredPMiddle := prevDesiredPMiddle w;
     ledChaseIndex := ledChaseIndex w; clock := clock w; adc := adc w; rng := rng w;
     rng_pos := rng_pos w; trace := trace w |}.

Definition with_lastUpdateMs (w : World) (t : Z) : World :=
  {| SPEED_FACTOR := SPEED_FACTOR w; current := current w; stateEndMs := stateEndMs w;
     lastUpdateMs := t; prevDesiredPMiddle := prevDesiredPMiddle w;
     ledChaseIndex := ledChaseIndex w; clock := clock w; adc := adc w; rng := rng w;
     rng_pos := rng_pos w; trace := trace w |}.

Definition with_prevDesiredPMiddle (w : World) (p : float) : World :=
  {| SPEED_FACTOR := SPEED_FACTOR w; current := current w; stateEndMs := stateEndMs w;
     lastUpdateMs := lastUpdateMs w; prevDesiredPMiddle := p;
     ledChaseIndex := ledChaseIndex w; clock := clock w; adc := adc w; rng := rng w;
     rng_pos := rng_pos w; trace := trace w |}.

Definition with_ledChaseIndex (w : World) (i : Z) : World :=
  {| SPEED_FACTOR := SPEED_FACTOR w; current := current w; stateEndMs := stateEndMs w;
     lastUpdateMs := lastUpdateMs w; prevDesiredPMiddle := prevDesiredPMiddle w;
     ledChaseIndex := i; clock := clock w; adc := adc w; rng := rng w;
     rng_pos := rng_pos w; trace := trace w |}.

Definition with_clock (w : World) (t : Z) : World :=
  {| SPEED_FACTOR := SPEED_FACTOR w; current := current w; stateEndMs := stateEndMs w;
     lastUpdateMs := lastUpdateMs w; prevDesiredPMiddle := prevDesiredPMiddle w;
     ledChaseIndex := ledChaseIndex w; clock := t; adc := adc w; rng := rng w;
     rng_pos := rng_pos w; trace := trace w |}.

Definition with_rng_pos (w : World) (n : nat) : World :=
  {| SPEED_FACTOR := SPEED_FACTOR w; current := current w; stateEndMs := stateEndMs w;
     lastUpdateMs := lastUpdateMs w; prevDesiredPMiddle := prevDesiredPMiddle w;
     ledChaseIndex := ledChaseIndex w; clock := clock w; adc := adc w; rng := rng w;
     rng_pos := n; trace := trace w |}.

Definition with_trace (w : World) (t : list Event) : World :=
  {| SPEED_FACTOR := SPEED_FACTOR w; current := current w; stateEndMs := stateEndMs w;
     lastUpdateMs := lastUpdateMs w; prevDesiredPMiddle := prevDesiredPMiddle w;
     ledChaseIndex := ledChaseIndex w; clock := clock w; adc := adc w; rng := rng w;
     rng_pos := rng_pos w; trace := t |}.

(* ================================================================== *)
(** ** The monad of the sketch: state over [World], with failure *)

Definition M (A : Type) : Type := World -> option (A * World).

Definition ret {A} (a : A) : M A := fun w => Some (a, w).

Definition bind {A B} (m : M A) (k : A -> M B) : M B :=
  fun w => match m w with
           | Some (a, w') => k a w'
           | None => None
           end.

Notation "x <- m ;; k" := (bind m (fun x => k))
  (at level 61, m at next level, right associativity).
Notation "m ;; k" := (bind m (fun _ => k))
  (at level 61, right associativity).

(** An operation that C leaves undefined when it yields [None]. *)
Definition defined {A} (o : option A) : M A :=
  fun w => match o with Some a => Some (a, w) | None => None end.

Definition emit (e : Event) : M unit :=
  fun w => Some (tt, with_trace w (trace w ++ [e])).

Definition analogWrite (pin val : Z) : M unit := emit (EvAnalogWrite pin val).

(** [analogRead] returns an [int]. *)
Definition analogRead (a : AnalogIn) : M Z := fun w => Some (to_int16 (adc w a), w).

Definition millis : M Z :=
  fun w => Some (clock w, with_trace w (trace w ++ [EvMillis (clock w)])).

Definition delay (ms : Z) : M unit :=
  fun w => Some (tt, with_trace (with_clock w (to_uint32 (clock w + ms)))
                                (trace w ++ [EvDelay ms])).

(** The core's [random(howsmall, howbig)]: the next raw draw (a [long] in
    [[0, 2^31)]) reduced to the requested interval. *)
Definition random (howsmall howbig : Z) : M Z :=
  fun w =>
    if howbig <=? howsmall then Some (howsmall, w)
    else Some ((rng w (rng_pos w) mod 2 ^ 31) mod (howbig - howsmall) + howsmall,
               with_rng_pos w (S (rng_pos w))).

Definition get {A} (f : World -> A) : M A := fun w => Some (f w, w).
Definition modify (f : World -> World) : M unit := fun w => Some (tt, f w).

(* ================================================================== *)
(** ** Pressure regulators *)

Definition setPressureMiddle (desiredP inMin inMax : float) : M unit :=
  let minP1 := F32.of_int 40 in
  let maxP1 := F32.of_int 110 in
  let minP := minP1 in
  let maxP := maxP1 in
  let desiredP := ((maxP - minP) * desiredP + minP)%f32 in
  raw <- analogRead A1 ;;
  let currentP := F32.of_int raw in
  let error := (currentP - desiredP)%f32 in
  (if (error <? F32.of_int (-10))%f32 then
     x <- defined (F32.to_long (error * F32.of_int (-1))%f32) ;;
     in_max <- defined (F32.to_long maxP) ;;
     v <- defined (map x 0 in_max 50 255) ;;
     let val := to_int16 v in
     analogWrite PIN_PUMP_BASE val ;;
     analogWrite PIN_VALVE_BASE 0
   else if (F32.of_int 10 <? error)%f32 then
     x <- defined (F32.to_long error) ;;
     in_max <- defined (F32.to_long maxP) ;;
     v <- defined (map x 0 in_max 230 255) ;;
     let val := to_int16 v in
     analogWrite PIN_VALVE_BASE val ;;
     analogWrite PIN_PUMP_BASE 0
   else
     analogWrite PIN_PUMP_BASE 0 ;;
     analogWrite PIN_VALVE_BASE 0) ;;
  modify (fun w => with_prevDesiredPMiddle w currentP).

Definition setPressureLeaves (desiredP inMin inMax : float) : M unit :=
  let minP1 := F32.of_int 40 in
  let maxP1 := F32.of_int 500 in
  let minP2 := F32.of_int 40 in
  let maxP2 := F32.of_int 600 in
  let minP := minP2 in
  let maxP := maxP2 in
  let desiredP := ((maxP - minP) * desiredP + minP)%f32 in
  raw <- analogRead A2 ;;
  let currentP := F32.of_int raw in
  let error := (currentP - desiredP)%f32 in
  if (error <? F32.of_int (-10))%f32 then
    x <- defined (F32.to_long (error * F32.of_int (-1))%f32) ;;
    in_max <- defined (F32.to_long maxP) ;;
    v <- defined (map x 0 in_max 100 255) ;;
    let val := to_int16 v in
    analogWrite PIN_PUMP_LEAVES val ;;
    analogWrite PIN_VALVE_LEAVES 0
  else if (F32.of_int 10 <? error)%f32 then
    x <- defined (F32.to_long error) ;;
    in_max <- defined (F32.to_long maxP) ;;
    v <- defined (map x 0 in_max 230 255) ;;
    let val := to_int16 v in
    analogWrite PIN_VALVE_LEAVES val ;;
    analogWrite PIN_PUMP_LEAVES 0
  else
    analogWrite PIN_PUMP_LEAVES 0 ;;
    analogWrite PIN_VALVE_LEAVES 0.

(* ================================================================== *)
(** ** State machine tables and sampling *)

(** Transition probability matrix [P[current][next]]. *)
Definition P (s n : State) : float :=
  match s, n with
  | NEUTRAL, NEUTRAL => F32.lit 10 100 | NEUTRAL, CALM => F32.lit 35 100
  | NEUTRAL, CURIOUS => F32.lit 25 100 | NEUTRAL, ANGRY => F32.lit 15 100
  | NEUTRAL, SAD => F32.lit 15 100
  | CALM, NEUTRAL => F32.lit 25 100 | CALM, CALM => F32.lit 10 100
  | CALM, CURIOUS => F32.lit 30 100 | CALM, ANGRY => F32.lit 20 100
  | CALM, SAD => F32.lit 15 100
  | CURIOUS, NEUTRAL => F32.lit 10 100 | CURIOUS, CALM => F32.lit 25 100
  | CURIOUS, CURIOUS => F32.lit 10 100 | CURIOUS, ANGRY => F32.lit 25 100
  | CURIOUS, SAD => F32.lit 30 100
  | ANGRY, NEUTRAL => F32.lit 25 100 | ANGRY, CALM => F32.lit 20 100
  | ANGRY, CURIOUS => F32.lit 10 100 | ANGRY, ANGRY => F32.lit 10 100
  | ANGRY, SAD => F32.lit 35 100
  | SAD, NEUTRAL => F32.lit 30 100 | SAD, CALM => F32.lit 30 100
  | SAD, CURIOUS => F32.lit 10 100 | SAD, ANGRY => F32.lit 20 100
  | SAD, SAD => F32.lit 10 100
  end.

(** Dwell time ranges (seconds). *)
Definition DWELL (s : State) : Range :=
  match s with
  | NEUTRAL => {| lo := F32.of_int 5; hi := F32.of_int 7 |}
  | CALM => {| lo := F32.of_int 7; hi := F32.of_int 15 |}
  | CURIOUS => {| lo := F32.of_int 5; hi := F32.of_int 10 |}
  | ANGRY => {| lo := F32.of_int 10; hi := F32.of_int 13 |}
  | SAD => {| lo := F32.of_int 5; hi := F32.of_int 12 |}
  end.

(** The modes in matrix order: [(State)0 .. (State)4]. *)
Definition all_states : list State := [NEUTRAL; CALM; CURIOUS; ANGRY; SAD].

(** [frand] once [random(0, 10000)] has returned [k]. *)
Definition frand_of (a b : float) (k : Z) : float :=
  (a + (b - a) * (F32.of_int k / F32.of_int 10000))%f32.

Definition frand (a b : float) : M float :=
  k <- random 0 10000 ;; ret (frand_of a b k).

Definition sampleDwellMillis_of (speed : float) (s : State) (k : Z) : option Z :=
  let secs := (frand_of (lo (DWELL s)) (hi (DWELL s)) k / speed)%f32 in
  F32.to_ulong (secs * F32.of_int 1000)%f32.

Definition sampleDwellMillis (s : State) : M Z :=
  speed <- get SPEED_FACTOR ;;
  k <- random 0 10000 ;;
  defined (sampleDwellMillis_of speed s k).

(** The loop [for (n = 0; n < 5; ++n) { acc += row[n]; if (r <= acc) return n; }]
    over the remaining columns [ns], and the fallback [(State)4] after it. *)
Fixpoint roulette (row : State -> float) (r acc : float) (ns : list State) : State :=
  match ns with
  | [] => SAD
  | n :: rest =>
      let acc := (acc + row n)%f32 in
      if (r <=? acc)%f32 then n else roulette row r acc rest
  end.

(** [sampleNextState] over a transition matrix [p], once the draw is [k]. *)
Definition sampleNextState_of (p : State -> State -> float) (s : State) (k : Z) : State :=
  let r := frand_of (F32.of_int 0) (F32.of_int 1) k in
  let acc := F32.of_int 0 in
  roulette (p s) r acc all_states.

Definition sampleNextState (s : State) : M State :=
  k <- random 0 10000 ;; ret (sampleNextState_of P s k).

(* ================================================================== *)
(** ** Waveforms *)

Definition clamp01 (x : float) : float :=
  if (x <? F32.of_int 0)%f32 then F32.of_int 0
  else if (F32.of_int 1 <? x)%f32 then F32.of_int 1 else x.

(** [clamp01] followed by the scaling and the [uint8_t] conversion. *)
Definition levelToPWM (level : float) (maxPWM : Z) : option Z :=
  let level := clamp01 level in
  F32.to_uint8 (level * F32.of_int maxPWM)%f32.

(** [(float)(t % period) / (float)period] *)
Definition phase_of (t period : Z) : option float :=
  match urem t period with
  | Some x => Some (F32.of_int x / F32.of_int period)%f32
  | None => None
  end.

Definition triWave (t period : Z) (minL maxL : float) : option float :=
  let period := if period <? 10 then 10 else period in
  match phase_of t period with
  | Some phase =>
      let y := if (phase <? F32.lit 5 10)%f32 then (phase * F32.of_int 2)%f32
               else (F32.of_int 2 - phase * F32.of_int 2)%f32 in
      Some (minL + (maxL - minL) * y)%f32
  | None => None
  end.

Definition squareWave (t period : Z) (duty : float) : option float :=
  let period := if period <? 10 then 10 else period in
  match phase_of t period with
  | Some phase => Some (if (phase <? duty)%f32 then F32.of_int 1 else F32.of_int 0)
  | None => None
  end.

(** [3.14159f] *)
Definition PI_LIT : float := F32.lit 314159 100000.

Section Libm.

(** The C library's [sinf] and [powf], which the sketch links against. *)
Variable sinf : float -> float.
Variable powf : float -> float -> float.

Definition sineWave (t period : Z) (minL maxL : float) : option float :=
  let period := if period <? 10 then 10 else period in
  match phase_of t period with
  | Some phase =>
      let y := (F32.lit 5 10 + F32.lit 5 10 * sinf (F32.of_int 2 * PI_LIT * phase))%f32 in
      Some (minL + (maxL - minL) * y)%f32
  | None => None
  end.

Definition heartPulse (t period : Z) : option float :=
  match phase_of t period with
  | Some phase =>
      let s := sinf (F32.of_int 2 * PI_LIT * phase)%f32 in
      let y := powf (F32.abs s) (F32.lit 35 10) in
      Some y
  | None => None
  end.


(* ---------------------------------------------------------------- *)
(** *** LED helpers *)

Definition hsv (h s v : float) : option RGB :=
  let i := F32.floor (h * F32.of_int 6)%f32 in
  let f := (h * F32.of_int 6 - i)%f32 in
  let p := (v * (F32.of_int 1 - s))%f32 in
  let q := (v * (F32.of_int 1 - f * s))%f32 in
  let t := (v * (F32.of_int 1 - (F32.of_int 1 - f) * s))%f32 in
  match F32.to_int i with
  | Some ii =>
      let '(r, g, b) :=
        match Z.rem ii 6 with
        | 0 => (v, t, p)
        | 1 => (q, v, p)
        | 2 => (p, v, t)
        | 3 => (p, q, v)
        | 4 => (t, p, v)
        | _ => (v, p, q)
        end in
      match F32.to_uint8 (r * F32.of_int 255)%f32,
            F32.to_uint8 (g * F32.of_int 255)%f32,
            F32.to_uint8 (b * F32.of_int 255)%f32 with
      | Some r8, Some g8, Some b8 => Some {| r := r8; g := g8; b := b8 |}
      | _, _, _ => None
      end
  | None => None
  end.

Fixpoint for_each {A} (xs : list A) (body : A -> M unit) : M unit :=
  match xs with
  | [] => ret tt
  | x :: rest => body x ;; for_each rest body
  end.

(** The values of [i] in [for (uint8_t i = 0; i < NUM_LEDS; ++i)]. *)
Definition led_indices : list Z := List.map Z.of_nat (seq 0 (Z.to_nat NUM_LEDS)).

Definition setBrightness (x : Z) : M unit := emit (EvSetBrightness x).
Definition setPixelColor (i : Z) (c : RGB) : M unit := emit (EvSetPixelColor i c).
Definition show : M unit := emit EvShow.

Definition ledsFill (r g b brightness : Z) : M unit :=
  setBrightness brightness ;;
  for_each led_indices (fun i => setPixelColor i {| r := r; g := g; b := b |}) ;;
  show.

(* ---------------------------------------------------------------- *)
(** *** Behaviours *)

(** [(unsigned long)(ms / SPEED_FACTOR)] *)
Definition scaled (ms : Z) : M Z :=
  speed <- get SPEED_FACTOR ;;
  defined (F32.to_ulong (F32.of_int ms / speed)%f32).

Definition runNeutral (now : Z) : M unit :=
  period <- scaled 8000 ;;
  baseL <- defined (sineWave now period (F32.lit 1 10) (F32.lit 85 100)) ;;
  setPressureMiddle baseL (F32.of_int 0) (F32.of_int 1) ;;
  setPressureLeaves (F32.of_int 0) (F32.of_int 0) (F32.of_int 1) ;;
  ledsFill 100 100 100 100.

Definition runCalm (now : Z) : M unit :=
  period <- scaled 8000 ;;
  baseL <- defined (sineWave now period (F32.lit 1 10) (F32.lit 85 100)) ;;
  off <- scaled 500 ;;
  leavesL <- defined (sineWave (to_uint32 (now + off)) period (F32.lit 1 10) (F32.lit 55 100)) ;;
  setPressureMiddle baseL (F32.of_int 0) (F32.of_int 1) ;;
  setPressureLeaves leavesL (F32.of_int 0) (F32.of_int 1) ;;
  c <- defined (hsv (F32.lit 48 100) (F32.lit 6 10) (F32.lit 9 10)) ;;
  bright <- defined (F32.to_uint8 (F32.of_int 20 + baseL * F32.of_int 120)%f32) ;;
  ledsFill (r c) (g c) (b c) bright.

Definition runCurious (now : Z) : M unit :=
  pulsePeriod <- scaled 1200 ;;
  leavesPulse <- defined (triWave now pulsePeriod (F32.lit 15 100) (F32.lit 85 100)) ;;
  setPressureMiddle (F32.lit 5 10) (F32.of_int 0) (F32.of_int 1) ;;
  setPressureLeaves leavesPulse (F32.of_int 0) (F32.of_int 1) ;;
  setBrightness 60 ;;
  for_each led_indices (fun i =>
    chase <- get ledChaseIndex ;;
    let idx := to_uint8 (to_uint16 (i + chase / 2) mod NUM_LEDS) in
    let atten := if idx =? i then F32.of_int 1 else F32.lit 25 100 in
    r <- defined (F32.to_uint8 (F32.of_int 220 * atten)%f32) ;;
    g <- defined (F32.to_uint8 (F32.of_int 180 * atten)%f32) ;;
    b <- defined (F32.to_uint8 (F32.of_int 40 * atten)%f32) ;;
    setPixelColor idx {| r := r; g := g; b := b |}) ;;
  show ;;
  modify (fun w => with_ledChaseIndex w (to_uint16 (ledChaseIndex w + 1) mod (NUM_LEDS * 4))).

Definition runAngry (now : Z) : M unit :=
  burstPeriod <- scaled 900 ;;
  baseL <- defined (squareWave now burstPeriod (F32.lit 45 100)) ;;
  let leavesL := (F32.lit 5 10 + baseL * (F32.lit 8 10 - F32.lit 5 10))%f32 in
  setPressureMiddle baseL (F32.of_int 0) (F32.of_int 1) ;;
  setPressureLeaves leavesL (F32.of_int 0) (F32.of_int 1) ;;
  hbPeriod <- scaled 500 ;;
  hb <- defined (heartPulse now hbPeriod) ;;
  brightness <- defined (F32.to_uint8 (F32.of_int 80 + hb * F32.of_int 120)%f32) ;;
  setBrightness brightness ;;
  for_each led_indices (fun i =>
    chase <- get ledChaseIndex ;;
    let on := if i =? chase mod NUM_LEDS then 40 else 0 in
    setPixelColor i {| r := 255; g := 60 + on; b := 0 |}) ;;
  show ;;
  (if now mod 60 =? 0
   then modify (fun w => with_ledChaseIndex w (to_uint16 (ledChaseIndex w + 1)))
   else ret tt).

Definition runSad (now : Z) : M unit :=
  period <- scaled 12000 ;;
  baseL <- defined (sineWave now period (F32.lit 5 100) (F32.lit 35 100)) ;;
  off <- scaled 800 ;;
  leavesL <- defined (sineWave (to_uint32 (now + off)) period (F32.lit 3 100) (F32.lit 25 100)) ;;
  setPressureMiddle baseL (F32.of_int 0) (F32.of_int 1) ;;
  setPressureLeaves leavesL (F32.of_int 0) (F32.of_int 1) ;;
  let v := (F32.lit 15 100 + baseL * F32.lit 4 10)%f32 in
  c <- defined (hsv (F32.lit 70 100) (F32.lit 6 10) v) ;;
  bright <- defined (F32.to_uint8 (F32.of_int 30 + v * F32.of_int 80)%f32) ;;
  ledsFill (r c) (g c) (b c) bright.

(* ---------------------------------------------------------------- *)
(** *** Core loop *)

Definition runBehavior (s : State) (now : Z) : M unit :=
  match s with
  | NEUTRAL => runNeutral now
  | CALM => runCalm now
  | CURIOUS => runCurious now
  | ANGRY => runAngry now
  | SAD => runSad now
  end.

Definition enterState (s : State) : M unit :=
  dwell <- sampleDwellMillis s ;;
  t <- millis ;;
  modify (fun w => with_stateEndMs w (to_uint32 (t + dwell))) ;;
  emit (EvPrintln (STATE_NAMES s) dwell).

Definition setup : M unit :=
  analogWrite PIN_PUMP_BASE 0 ;;
  analogWrite PIN_PUMP_LEAVES 0 ;;
  analogWrite PIN_VALVE_BASE 0 ;;
  analogWrite PIN_VALVE_LEAVES 0 ;;
  show ;;
  setBrightness 50 ;;
  _ <- analogRead A0 ;;
  modify (fun w => with_current w NEUTRAL) ;;
  s <- get current ;;
  enterState s ;;
  t <- millis ;;
  modify (fun w => with_lastUpdateMs w t).

(** One iteration of [loop] as the sketch has it: the state machine is
    commented out and the NEUTRAL behaviour is run unconditionally. *)
Definition loop : M unit :=
  now <- millis ;;
  runNeutral now ;;
  delay 10.

(** The state machine's check-and-advance step, as in the block that is
    commented out in [loop]:
    [if ((long)(now - stateEndMs) >= 0) { current = sampleNextState(current); enterState(current); }] *)
Definition checkAdvance (now : Z) : M unit :=
  deadline <- get stateEndMs ;;
  if 0 <=? to_int32 (now - deadline) then
    s <- get current ;;
    next <- sampleNextState s ;;
    modify (fun w => with_current w next) ;;
    s' <- get current ;;
    enterState s'
  else ret tt.

(** The tick the specification describes: orchestrate the current mode,
    then check and advance, on one clock reading. *)
Definition loop_spec : M unit :=
  now <- millis ;;
  s <- get current ;;
  runBehavior s now ;;
  checkAdvance now ;;
  delay 10.


(** [n] iterations of [loop], and the sketch as the Arduino runtime runs it:
    [setup] once, then [loop] again and again. *)
Fixpoint iterations (n : nat) : M unit :=
  match n with
  | O => ret tt
  | S n' => loop ;; iterations n'
  end.

Definition sketch (n : nat) : M unit := setup ;; iterations n.

End Libm.

(* ================================================================== *)
(** ** Observations used in the statements *)

(** The values written to [pin] by a run of events, in order. *)
Definition pinWrites (pin : Z) (evs : list Event) : list Z :=
  flat_map (fun e => match e with
                     | EvAnalogWrite p v => if p =? pin then [v] else []
                     | _ => []
                     end) evs.

(** The error a regulator computes from the level [desiredP] and the raw
    sensor reading: the reading minus the affine-mapped target pressure. *)
Definition pressure_error (minP maxP desiredP : float) (raw : Z) : float :=
  (F32.of_int raw - ((maxP - minP) * desiredP + minP))%f32.

Definition errorMiddle (desiredP : float) (w : World) : float :=
  pressure_error (F32.of_int 40) (F32.of_int 110) desiredP (to_int16 (adc w A1)).

Definition errorLeaves (desiredP : float) (w : World) : float :=
  pressure_error (F32.of_int 40) (F32.of_int 600) desiredP (to_int16 (adc w A2)).

(** The three-way branch shared by both regulators, as the events it emits. *)
Definition channel_events (pumpPin valvePin in_max pumpLo : Z) (error : float)
  : option (list Event) :=
  if (error <? F32.of_int (-10))%f32 then
    match F32.to_long (error * F32.of_int (-1))%f32 with
    | Some x =>
        match map x 0 in_max pumpLo 255 with
        | Some v => Some [EvAnalogWrite pumpPin (to_int16 v); EvAnalogWrite valvePin 0]
        | None => None
        end
    | None => None
    end
  else if (F32.of_int 10 <? error)%f32 then
    match F32.to_long error with
    | Some x =>
        match map x 0 in_max 230 255 with
        | Some v => Some [EvAnalogWrite valvePin (to_int16 v); EvAnalogWrite pumpPin 0]
        | None => None
        end
    | None => None
    end
  else Some [EvAnalogWrite pumpPin 0; EvAnalogWrite valvePin 0].

(* ================================================================== *)
(** ** Auxiliary notions for the proofs *)

(** The exponent function of binary32 and the bit length of a mantissa. *)
Definition fexp32 (e : Z) : Z := Z.max (e - 24) (-149).
Definition digits (m : positive) : Z := Z.pos (digits2_pos m).

(** Whether bits have been shifted out of a mantissa. *)
Definition inexact (mrs : shr_record) : bool := shr_r mrs || shr_s mrs.

(** [x] is zero or finite with [|x| <= 2^k]. *)
Definition mag_le (k : Z) (x : float) : Prop :=
  match x with
  | S754_zero _ => True
  | S754_finite _ m e => e <= k /\ Z.pos m <= 2 ^ (k - e)
  | S754_infinity _ | S754_nan => False
  end.

(** A well-formed binary32 value of magnitude at most [2^k]. *)
Definition good (k : Z) (x : float) : Prop := F32.valid x = true /\ mag_le k x.

(** How the magnitudes [m * 2^e] and [m' * 2^e'] of two finite floats
    compare, as [SFcompare] decides it. *)
Definition cmp_mag (m : positive) (e : Z) (m' : positive) (e' : Z) : comparison :=
  match Z.compare e e' with
  | Lt => Lt
  | Gt => Gt
  | Eq => Pos.compare m m'
  end.

Definition is_Gt (c : comparison) : bool :=
  match c with Gt => true | _ => false end.

(** Ten is [10485760 * 2^-20]. *)
Definition cmp_mag_ten (m : positive) (e : Z) : comparison := cmp_mag m e 10485760 (-20).

(** At most one of the two actuators of a channel is driven. *)
Definition exclusive (pumpPin valvePin : Z) (evs : list Event) : Prop :=
  exists p v, pinWrites pumpPin evs = [p] /\ pinWrites valvePin evs = [v] /\ (p = 0 \/ v = 0).

(** The events a computation adds to the trace, when it is defined. *)
Definition newEvents {A} (m : M A) (w : World) : option (list Event) :=
  match m w with
  | Some (_, w') => Some (skipn (List.length (trace w)) (trace w'))
  | None => None
  end.

(** A level the regulators' contract admits: a well-formed binary32 value
    between [0.0f] and [1.0f]. *)
Definition level_in_range (level : float) : Prop :=
  F32.valid level = true /\
  (F32.of_int 0 <=? level)%f32 = true /\ (level <=? F32.of_int 1)%f32 = true.

(** A reading of the 10-bit ADC. *)
Definition reading_in_range (raw : Z) : Prop := 0 <= raw <= 1023.

(** What a regulator does with an error outside the deadband: it drives the
    pump (alone, with a positive command) when the pressure is below the
    target, the valve when it is above, and it holds both at zero only
    inside the deadband. *)
Definition drives (pumpPin valvePin : Z) (error : float) (res : option (list Event)) : Prop :=
  ((error <? F32.of_int (-10))%f32 = true ->
   exists p, res = Some [EvAnalogWrite pumpPin p; EvAnalogWrite valvePin 0] /\ 0 < p) /\
  ((F32.of_int 10 <? error)%f32 = true ->
   exists v, res = Some [EvAnalogWrite valvePin v; EvAnalogWrite pumpPin 0] /\ 0 < v) /\
  (forall evs, res = Some evs ->
     pinWrites pumpPin evs = [0] -> pinWrites valvePin evs = [0] ->
     (F32.abs error <=? F32.of_int 10)%f32 = true).

(** A world for examples: unit speed factor, mode NEUTRAL, an empty trace,
    and the given readings on A1 and A2. *)
Definition example_world (a1 a2 : Z) : World :=
  {| SPEED_FACTOR := F32.of_int 1; current := NEUTRAL; stateEndMs := 0; lastUpdateMs := 0;
     prevDesiredPMiddle := F32.of_int 0; ledChaseIndex := 0; clock := 0;
     adc := fun a => match a with A0 => 0 | A1 => a1 | A2 => a2 end;
     rng := fun _ => 0; rng_pos := 0; trace := [] |}.

(** The cumulative sums of a row, accumulated left to right from [acc],
    each paired with its column. *)
Fixpoint running_sums (row : State -> float) (acc : float) (ns : list State)
  : list (State * float) :=
  match ns with
  | [] => []
  | n :: rest => let acc := (acc + row n)%f32 in (n, acc) :: running_sums row acc rest
  end.

(** Roulette-wheel selection as the specification words it: the first mode
    whose cumulative sum is at least [r], and the last mode of the row when
    there is none. *)
Definition select (row : State -> float) (r : float) : State :=
  match find (fun nc => (r <=? snd nc)%f32) (running_sums row (F32.of_int 0) all_states) with
  | Some nc => fst nc
  | None => SAD
  end.

(** [k], [k + 1], ..., [k + n - 1]. *)
Fixpoint count_up (n : nat) (k : Z) : list Z :=
  match n with
  | O => []
  | S n' => k :: count_up n' (k + 1)
  end.

(** The draws [random(0, 10000)] can return. *)
Definition draws : list Z := count_up (Z.to_nat 10000) 0.

Definition unit_interval (r : float) : bool :=
  (F32.of_int 0 <=? r)%f32 && (r <? F32.of_int 1)%f32.

(** The dwell ranges of [DWELL], in whole seconds. *)
Definition DWELL_SECONDS (s : State) : Z * Z :=
  match s with
  | NEUTRAL => (5, 7)
  | CALM => (7, 15)
  | CURIOUS => (5, 10)
  | ANGRY => (10, 13)
  | SAD => (5, 12)
  end.

(** With an integral speed factor [n], the sampled dwell [d] (milliseconds)
    lies in [[lo/n, hi/n]] seconds when [1000*lo <= n*d <= 1000*hi]. *)
Definition dwell_in_range (n : Z) (s : State) (k : Z) : bool :=
  match sampleDwellMillis_of (F32.of_int n) s k with
  | Some d => (1000 * fst (DWELL_SECONDS s) <=? n * d) && (n * d <=? 1000 * snd (DWELL_SECONDS s))
  | None => false
  end.

(** [sampleDwellMillis] once the draw has been scaled to [u = k / 10000.0f],
    the part of [frand] all modes share. *)
Definition dwell_of_unit (speed : float) (s : State) (u : float) : option Z :=
  let secs := ((lo (DWELL s) + (hi (DWELL s) - lo (DWELL s)) * u) / speed)%f32 in
  F32.to_ulong (secs * F32.of_int 1000)%f32.

Definition dwell_within (n : Z) (s : State) (d : option Z) : bool :=
  match d with
  | Some d => (1000 * fst (DWELL_SECONDS s) <=? n * d) && (n * d <=? 1000 * snd (DWELL_SECONDS s))
  | None => false
  end.

(** For one draw: every mode's dwell at speed 1.0 is in range, and so is
    the ANGRY dwell at speed 2.0. *)
Definition dwell_check (k : Z) : bool :=
  let u := (F32.of_int k / F32.of_int 10000)%f32 in
  forallb (fun s => dwell_within 1 s (dwell_of_unit (F32.of_int 1) s u)) all_states
  && dwell_within 2 ANGRY (dwell_of_unit (F32.of_int 2) ANGRY u).

(** The period a clamped waveform really uses. *)
Definition clamped (period : Z) : Z := if period <? 10 then 10 else period.

(** [m] leaves the observation [f] of the world as it found it. *)
Definition preserves {A B} (f : World -> B) (m : M A) : Prop :=
  forall w a w', m w = Some (a, w') -> f w' = f w.

(** [m] only appends to the trace, and every event it appends satisfies [Q]. *)
Definition emits {A} (Q : Event -> Prop) (m : M A) : Prop :=
  forall w a w', m w = Some (a, w') ->
                 exists evs, trace w' = trace w ++ evs /\ Forall Q evs.

(** Observations that do not look at the trace, the regulator's memory, the
    chase index or the clock. *)
Definition ignores_trace {B} (f : World -> B) : Prop :=
  forall w t, f (with_trace w t) = f w.
Definition ignores_prev {B} (f : World -> B) : Prop :=
  forall w p, f (with_prevDesiredPMiddle w p) = f w.
Definition ignores_chase {B} (f : World -> B) : Prop :=
  forall w i, f (with_ledChaseIndex w i) = f w.
Definition ignores_clock {B} (f : World -> B) : Prop :=
  forall w t, f (with_clock w t) = f w.

Definition not_millis (e : Event) : Prop := forall t, e <> EvMillis t.

(* ------------------------------------------------------------------ *)
(** ** A behaviour call taken apart *)

(** [(unsigned long)(ms / speed)] as a function of the speed factor. *)
Definition scaled_of (speed : float) (ms : Z) : option Z :=
  F32.to_ulong (F32.of_int ms / speed)%f32.

Definition obind {A B} (o : option A) (k : A -> option B) : option B :=
  match o with
  | Some a => k a
  | None => None
  end.

(** The events of [ledsFill]. *)
Definition fill_events (r g b brightness : Z) : list Event :=
  EvSetBrightness brightness
  :: List.map (fun i => EvSetPixelColor i {| r := r; g := g; b := b |}) led_indices
  ++ [EvShow].

(** The pixel [runCurious] paints at loop index [i]: the rotated position,
    bright where the rotation is the identity and dimmed elsewhere. *)
Definition curious_pixel (chase i : Z) : Event :=
  let idx := to_uint8 (to_uint16 (i + chase / 2) mod NUM_LEDS) in
  EvSetPixelColor idx (if idx =? i then {| r := 220; g := 180; b := 40 |}
                       else {| r := 55; g := 45; b := 10 |}).

(** The pixel [runAngry] paints at index [i]. *)
Definition angry_pixel (chase i : Z) : Event :=
  EvSetPixelColor i {| r := 255; g := 60 + (if i =? chase mod NUM_LEDS then 40 else 0); b := 0 |}.

(** The chase index a behaviour leaves behind. *)
Definition next_chase (s : State) (now chase : Z) : Z :=
  match s with
  | CURIOUS => to_uint16 (chase + 1) mod (NUM_LEDS * 4)
  | ANGRY => if now mod 60 =? 0 then to_uint16 (chase + 1) else chase
  | NEUTRAL | CALM | SAD => chase
  end.


(** A world for examples with the given speed factor and chase index: mode
    NEUTRAL, clock [t], readings 60 on every input, an empty trace. *)
Definition speed_world (speed : float) (chase t : Z) : World :=
  {| SPEED_FACTOR := speed; current := NEUTRAL; stateEndMs := 0; lastUpdateMs := 0;
     prevDesiredPMiddle := F32.of_int 0; ledChaseIndex := chase; clock := t;
     adc := fun _ => 60; rng := fun _ => 0; rng_pos := 0; trace := [] |}.

(** A stand-in for [sinf] and [powf] in closed examples. *)
Definition flat_sinf : float -> float := fun _ => F32.of_int 0.
Definition flat_powf : float -> float -> float := fun x _ => x.


Section Decomposition.

Variable sinf : float -> float.
Variable powf : float -> float -> float.

(** The two target levels of a mode, from the speed factor and the clock
    reading alone. *)
Definition target_levels (speed : float) (s : State) (now : Z) : option (float * float) :=
  match s with
  | NEUTRAL =>
      obind (scaled_of speed 8000) (fun period =>
      obind (sineWave sinf now period (F32.lit 1 10) (F32.lit 85 100)) (fun baseL =>
      Some (baseL, F32.of_int 0)))
  | CALM =>
      obind (scaled_of speed 8000) (fun period =>
      obind (sineWave sinf now period (F32.lit 1 10) (F32.lit 85 100)) (fun baseL =>
      obind (scaled_of speed 500) (fun off =>
      obind (sineWave sinf (to_uint32 (now + off)) period (F32.lit 1 10) (F32.lit 55 100))
            (fun leavesL => Some (baseL, leavesL)))))
  | CURIOUS =>
      obind (scaled_of speed 1200) (fun pulsePeriod =>
      obind (triWave now pulsePeriod (F32.lit 15 100) (F32.lit 85 100)) (fun leavesPulse =>
      Some (F32.lit 5 10, leavesPulse)))
  | ANGRY =>
      obind (scaled_of speed 900) (fun burstPeriod =>
      obind (squareWave now burstPeriod (F32.lit 45 100)) (fun baseL =>
      Some (baseL, (F32.lit 5 10 + baseL * (F32.lit 8 10 - F32.lit 5 10))%f32)))
  | SAD =>
      obind (scaled_of speed 12000) (fun period =>
      obind (sineWave sinf now period (F32.lit 5 100) (F32.lit 35 100)) (fun baseL =>
      obind (scaled_of speed 800) (fun off =>
      obind (sineWave sinf (to_uint32 (now + off)) period (F32.lit 3 100) (F32.lit 25 100))
            (fun leavesL => Some (baseL, leavesL)))))
  end.

(** What a behaviour does after its two regulator calls. *)
Definition visual (s : State) (now : Z) (baseL : float) : M unit :=
  match s with
  | NEUTRAL => ledsFill 100 100 100 100
  | CALM =>
      c <- defined (hsv (F32.lit 48 100) (F32.lit 6 10) (F32.lit 9 10)) ;;
      bright <- defined (F32.to_uint8 (F32.of_int 20 + baseL * F32.of_int 120)%f32) ;;
      ledsFill (r c) (g c) (b c) bright
  | CURIOUS =>
      setBrightness 60 ;;
      for_each led_indices (fun i =>
        chase <- get ledChaseIndex ;;
        let idx := to_uint8 (to_uint16 (i + chase / 2) mod NUM_LEDS) in
        let atten := if idx =? i then F32.of_int 1 else F32.lit 25 100 in
        r <- defined (F32.to_uint8 (F32.of_int 220 * atten)%f32) ;;
        g <- defined (F32.to_uint8 (F32.of_int 180 * atten)%f32) ;;
        b <- defined (F32.to_uint8 (F32.of_int 40 * atten)%f32) ;;
        setPixelColor idx {| r := r; g := g; b := b |}) ;;
      show ;;
      modify (fun w => with_ledChaseIndex w (to_uint16 (ledChaseIndex w + 1) mod (NUM_LEDS * 4)))
  | ANGRY =>
      hbPeriod <- scaled 500 ;;
      hb <- defined (heartPulse sinf powf now hbPeriod) ;;
      brightness <- defined (F32.to_uint8 (F32.of_int 80 + hb * F32.of_int 120)%f32) ;;
      setBrightness brightness ;;
      for_each led_indices (fun i =>
        chase <- get ledChaseIndex ;;
        let on := if i =? chase mod NUM_LEDS then 40 else 0 in
        setPixelColor i {| r := 255; g := 60 + on; b := 0 |}) ;;
      show ;;
      (if now mod 60 =? 0
       then modify (fun w => with_ledChaseIndex w (to_uint16 (ledChaseIndex w + 1)))
       else ret tt)
  | SAD =>
      let v := (F32.lit 15 100 + baseL * F32.lit 4 10)%f32 in
      c <- defined (hsv (F32.lit 70 100) (F32.lit 6 10) v) ;;
      bright <- defined (F32.to_uint8 (F32.of_int 30 + v * F32.of_int 80)%f32) ;;
      ledsFill (r c) (g c) (b c) bright
  end.

(** The LED frame of a behaviour: its events, from the speed factor, the
    clock reading, the chase index and the base level. *)
Definition led_frame (speed : float) (s : State) (now chase : Z) (baseL : float)
  : option (list Event) :=
  match s with
  | NEUTRAL => Some (fill_events 100 100 100 100)
  | CALM =>
      obind (hsv (F32.lit 48 100) (F32.lit 6 10) (F32.lit 9 10)) (fun c =>
      obind (F32.to_uint8 (F32.of_int 20 + baseL * F32.of_int 120)%f32) (fun bright =>
      Some (fill_events (r c) (g c) (b c) bright)))
  | CURIOUS =>
      Some (EvSetBrightness 60 :: List.map (curious_pixel chase) led_indices ++ [EvShow])
  | ANGRY =>
      obind (scaled_of speed 500) (fun hbPeriod =>
      obind (heartPulse sinf powf now hbPeriod) (fun hb =>
      obind (F32.to_uint8 (F32.of_int 80 + hb * F32.of_int 120)%f32) (fun brightness =>
      Some (EvSetBrightness brightness :: List.map (angry_pixel chase) led_indices ++ [EvShow]))))
  | SAD =>
      let v := (F32.lit 15 100 + baseL * F32.lit 4 10)%f32 in
      obind (hsv (F32.lit 70 100) (F32.lit 6 10) v) (fun c =>
      obind (F32.to_uint8 (F32.of_int 30 + v * F32.of_int 80)%f32) (fun bright =>
      Some (fill_events (r c) (g c) (b c) bright)))
  end.

(** The world a behaviour leaves, as a function of the world it finds: the
    levels, the two regulator branches, the LED frame and the chase index. *)
Definition behaviour_result (s : State) (now : Z) (w : World) : option World :=
  obind (target_levels (SPEED_FACTOR w) s now) (fun levels =>
  obind (channel_events PIN_PUMP_BASE PIN_VALVE_BASE 110 50 (errorMiddle (fst levels) w))
        (fun regM =>
  obind (channel_events PIN_PUMP_LEAVES PIN_VALVE_LEAVES 600 100 (errorLeaves (snd levels) w))
        (fun regL =>
  obind (led_frame (SPEED_FACTOR w) s now (ledChaseIndex w) (fst levels)) (fun frame =>
  Some {| SPEED_FACTOR := SPEED_FACTOR w; current := current w; stateEndMs := stateEndMs w;
          lastUpdateMs := lastUpdateMs w;
          prevDesiredPMiddle := F32.of_int (to_int16 (adc w A1));
          ledChaseIndex := next_chase s now (ledChaseIndex w);
          clock := clock w; adc := adc w; rng := rng w; rng_pos := rng_pos w;
          trace := trace w ++ regM ++ regL ++ frame |})))).

(** A behaviour with its level computation factored out: the levels, then
    the two regulators, then the LEDs. *)
Definition behaviour_of_levels (s : State) (now : Z) : M unit :=
  speed <- get SPEED_FACTOR ;;
  levels <- defined (target_levels speed s now) ;;
  setPressureMiddle (fst levels) (F32.of_int 0) (F32.of_int 1) ;;
  setPressureLeaves (snd levels) (F32.of_int 0) (F32.of_int 1) ;;
  visual s now (fst levels).

End Decomposition.

(** The values of a [uint8_t]. *)
Definition bytes : list Z := List.map Z.of_nat (seq 0 256).

(** [levelToPWM] at the two ends of the clamp, for one value of [maxPWM]. *)
Definition saturates (maxPWM : Z) : bool :=
  match F32.to_uint8 (F32.of_int 0 * F32.of_int maxPWM)%f32,
        F32.to_uint8 (F32.of_int 1 * F32.of_int maxPWM)%f32 with
  | Some z, Some m => (z =? 0) && (m =? maxPWM)
  | _, _ => false
  end.


(** The two colours of the CURIOUS pattern: full and attenuated to a quarter. *)
Definition curious_colour (chase : Z) : RGB :=
  if (chase / 2) mod NUM_LEDS =? 0 then {| r := 220; g := 180; b := 40 |}
  else {| r := 55; g := 45; b := 10 |}.

(* ================================================================== *)
(** * Properties *)

(** ** Comparisons of binary32 values *)

Lemma SFltb_finite_neg (s : bool) (m : positive) (e : Z) (m' : positive) (e' : Z) :
  SFltb (S754_finite s m e) (S754_finite true m' e') = s && is_Gt (cmp_mag m e m' e').
Proof.
  unfold SFltb, SFcompare, cmp_mag, Pos.compare, is_Gt.
  destruct s; cbn [andb]; [|reflexivity].
  destruct (e ?= e'); [|reflexivity|reflexivity].
  destruct (Pos.compare_cont Eq m m'); reflexivity.
Qed.

Lemma SFltb_pos_finite (s : bool) (m : positive) (e : Z) (m' : positive) (e' : Z) :
  SFltb (S754_finite false m' e') (S754_finite s m e) = negb s && is_Gt (cmp_mag m e m' e').
Proof.
  unfold SFltb, SFcompare, cmp_mag, is_Gt.
  destruct s; cbn [andb negb]; [reflexivity|].
  rewrite (Z.compare_antisym e e').
  destruct (e ?= e'); cbn [CompOpp]; [|reflexivity|reflexivity].
  change (Pos.compare_cont Eq m' m) with (Pos.compare m' m).
  rewrite (Pos.compare_antisym m m').
  destruct (Pos.compare m m'); reflexivity.
Qed.

Lemma SFleb_abs_finite (s : bool) (m : positive) (e : Z) (m' : positive) (e' : Z) :
  SFleb (SFabs (S754_finite s m e)) (S754_finite false m' e') = negb (is_Gt (cmp_mag m e m' e')).
Proof.
  unfold SFleb, SFabs, SFcompare, cmp_mag, Pos.compare, is_Gt.
  destruct (e ?= e'); [|reflexivity|reflexivity].
  destruct (Pos.compare_cont Eq m m'); reflexivity.
Qed.

Lemma cmp_mag_gt m e m' e' :
  is_Gt (cmp_mag m e m' e') = true -> e' < e \/ (e = e' /\ Z.pos m' < Z.pos m).
Proof.
  unfold cmp_mag, is_Gt.
  destruct (Z.compare_spec e e') as [Heq|Hlt|Hgt]; try discriminate; [|lia].
  destruct (Pos.compare_spec m m'); try discriminate. intros _. right. split; [assumption|lia].
Qed.

Lemma cmp_mag_not_gt m e m' e' :
  is_Gt (cmp_mag m e m' e') = false -> e < e' \/ (e = e' /\ Z.pos m <= Z.pos m').
Proof.
  unfold cmp_mag, is_Gt.
  destruct (Z.compare_spec e e') as [Heq|Hlt|Hgt]; try discriminate; [|lia].
  destruct (Pos.compare_spec m m'); try discriminate; intros _; right; split; try assumption; lia.
Qed.

Lemma zero_eq : F32.of_int 0 = S754_zero false.
Proof. reflexivity. Qed.

Lemma one_eq : F32.of_int 1 = S754_finite false 8388608 (-23).
Proof. vm_compute. reflexivity. Qed.

Lemma neg_one_eq : F32.of_int (-1) = S754_finite true 8388608 (-23).
Proof. vm_compute. reflexivity. Qed.

Lemma neg_ten_eq : F32.of_int (-10) = S754_finite true 10485760 (-20).
Proof. vm_compute. reflexivity. Qed.

Lemma ten_eq : F32.of_int 10 = S754_finite false 10485760 (-20).
Proof. vm_compute. reflexivity. Qed.

Lemma ltb_neg_ten (s : bool) (m : positive) (e : Z) :
  (S754_finite s m e <? F32.of_int (-10))%f32 = s && is_Gt (cmp_mag_ten m e).
Proof. rewrite neg_ten_eq. apply SFltb_finite_neg. Qed.

Lemma ltb_ten (s : bool) (m : positive) (e : Z) :
  (F32.of_int 10 <? S754_finite s m e)%f32 = negb s && is_Gt (cmp_mag_ten m e).
Proof. rewrite ten_eq. apply SFltb_pos_finite. Qed.

Lemma leb_abs_ten (s : bool) (m : positive) (e : Z) :
  (F32.abs (S754_finite s m e) <=? F32.of_int 10)%f32 = negb (is_Gt (cmp_mag_ten m e)).
Proof. rewrite ten_eq. apply SFleb_abs_finite. Qed.

(** Inside the deadband neither comparison of the branch fires. *)
Lemma deadband_holds (error : float) :
  (F32.abs error <=? F32.of_int 10)%f32 = true ->
  (error <? F32.of_int (-10))%f32 = false /\ (F32.of_int 10 <? error)%f32 = false.
Proof.
  destruct error as [s|s| |s m e]; intros H.
  - rewrite neg_ten_eq, ten_eq. split; reflexivity.
  - rewrite ten_eq in H. destruct s; discriminate H.
  - rewrite ten_eq in H. discriminate H.
  - rewrite leb_abs_ten in H. rewrite ltb_neg_ten, ltb_ten.
    destruct (is_Gt (cmp_mag_ten m e)); [discriminate H|].
    rewrite !andb_false_r; auto.
Qed.


(** ** Powers of two and bit lengths *)

Lemma pow2_pos n : 0 <= n -> 0 < 2 ^ n.
Proof. intros. apply Z.pow_pos_nonneg; lia. Qed.

Lemma pow2_lt_inv a b : 0 <= b -> 2 ^ a < 2 ^ b -> a < b.
Proof.
  intros Hb H. destruct (Z_lt_le_dec a b) as [|Hle]; [assumption|].
  apply (Z.pow_le_mono_r 2) in Hle; lia.
Qed.

Lemma pow2_le_inv a b : 0 <= b -> 2 ^ a <= 2 ^ b -> a <= b.
Proof.
  intros Hb H. destruct (Z_le_gt_dec a b) as [|Hgt]; [assumption|].
  assert (b < a) as Hlt by lia.
  apply (Z.pow_lt_mono_r 2) in Hlt; lia.
Qed.

Lemma pow2_split a b : 0 <= b <= a -> 2 ^ a = 2 ^ (a - b) * 2 ^ b.
Proof. intros. rewrite <- Z.pow_add_r by lia. f_equal. lia. Qed.

Lemma div_pow2_le m a b : 0 <= b <= a -> m <= 2 ^ a -> m / 2 ^ b <= 2 ^ (a - b).
Proof.
  intros Hab Hm. pose proof (pow2_pos b).
  apply Z.lt_succ_r. apply Z.div_lt_upper_bound; [lia|].
  rewrite (pow2_split a b) in Hm by lia. nia.
Qed.

Lemma div_pow2_ge m a b : 0 <= b <= a -> 2 ^ a <= m -> 2 ^ (a - b) <= m / 2 ^ b.
Proof.
  intros Hab Hm. pose proof (pow2_pos b).
  apply Z.div_le_lower_bound; [lia|].
  rewrite (pow2_split a b) in Hm by lia. nia.
Qed.

Lemma div_pow2_lt m a b : 0 <= b <= a -> m < 2 ^ a -> m / 2 ^ b < 2 ^ (a - b).
Proof.
  intros Hab Hm. pose proof (pow2_pos b).
  apply Z.div_lt_upper_bound; [lia|].
  rewrite (pow2_split a b) in Hm by lia. nia.
Qed.

Lemma fexp32_eq e : fexp F32.prec F32.emax e = fexp32 e.
Proof. reflexivity. Qed.

Lemma digits2_size m : digits2_pos m = Pos.size m.
Proof. induction m; simpl; congruence. Qed.

Lemma digits_bounds m : 2 ^ (digits m - 1) <= Z.pos m < 2 ^ digits m.
Proof.
  unfold digits. rewrite digits2_size.
  pose proof (Pos.size_gt m) as Hgt. pose proof (Pos.size_le m) as Hle.
  apply Pos2Z.pos_lt_pos in Hgt. apply Pos2Z.pos_le_pos in Hle.
  rewrite Pos2Z.inj_pow in Hgt, Hle.
  change (Z.pos m~0) with (2 * Z.pos m) in Hle.
  split; [|exact Hgt].
  assert (H : 2 ^ Z.pos (Pos.size m) = 2 * 2 ^ (Z.pos (Pos.size m) - 1)).
  { rewrite <- Z.pow_succ_r by lia. f_equal. lia. }
  lia.
Qed.

Lemma digits_pos m : 1 <= digits m.
Proof. unfold digits. lia. Qed.

Lemma digits_unique m d : 2 ^ (d - 1) <= Z.pos m < 2 ^ d -> digits m = d.
Proof.
  intros [Hlo Hhi]. pose proof (digits_bounds m) as [Dlo Dhi]. pose proof (digits_pos m).
  assert (0 < d).
  { destruct (Z_lt_le_dec 0 d); [assumption|].
    assert (2 ^ d <= 1).
    { destruct (Z.eq_dec d 0) as [->|]; [simpl; lia|]. rewrite Z.pow_neg_r by lia. lia. }
    lia. }
  assert (digits m - 1 < d) by (apply pow2_lt_inv; lia).
  assert (d - 1 < digits m) by (apply pow2_lt_inv; lia).
  lia.
Qed.

Lemma digits_le_of_le m a : 0 <= a -> Z.pos m <= 2 ^ a -> digits m <= a + 1.
Proof.
  intros Ha H. pose proof (digits_bounds m) as [Dlo _]. pose proof (digits_pos m).
  assert (digits m - 1 <= a) by (apply pow2_le_inv; lia). lia.
Qed.

Lemma digits_ge_of_ge m a : 0 <= a -> 2 ^ a <= Z.pos m -> a + 1 <= digits m.
Proof.
  intros Ha H. pose proof (digits_bounds m) as [_ Dhi]. pose proof (digits_pos m).
  assert (a < digits m) by (apply pow2_lt_inv; lia). lia.
Qed.

Lemma digits_mul_ge (m1 m2 : positive) : digits m1 + digits m2 - 1 <= digits (m1 * m2).
Proof.
  pose proof (digits_bounds m1) as [L1 _]. pose proof (digits_bounds m2) as [L2 _].
  pose proof (digits_pos m1). pose proof (digits_pos m2).
  replace (digits m1 + digits m2 - 1) with (digits m1 - 1 + (digits m2 - 1) + 1) by lia.
  apply digits_ge_of_ge; [lia|].
  rewrite Z.pow_add_r, Pos2Z.inj_mul by lia.
  pose proof (pow2_pos (digits m1 - 1) ltac:(lia)).
  pose proof (pow2_pos (digits m2 - 1) ltac:(lia)). nia.
Qed.


(** ** Shifting and rounding a mantissa *)

Lemma shr_1_spec mrs :
  0 <= shr_m mrs ->
  shr_m (shr_1 mrs) = shr_m mrs / 2 /\
  (inexact (shr_1 mrs) = false <-> (shr_m mrs mod 2 = 0 /\ inexact mrs = false)).
Proof.
  destruct mrs as [m r s]. unfold inexact; simpl. intros Hm.
  destruct m as [|p|p]; [| |lia].
  - simpl. split; [reflexivity|]. rewrite Zmod_0_l. tauto.
  - destruct p as [p|p|]; simpl shr_m; simpl shr_r; simpl shr_s.
    + split.
      * rewrite Pos2Z.inj_xI. apply (Z.div_unique _ _ _ 1); lia.
      * rewrite Pos2Z.inj_xI.
        replace ((2 * Z.pos p + 1) mod 2) with 1
          by (apply (Z.mod_unique _ _ (Z.pos p)); lia).
        simpl. split; [discriminate|]. intros [H _]; lia.
    + split.
      * rewrite Pos2Z.inj_xO. apply (Z.div_unique _ _ _ 0); lia.
      * rewrite Pos2Z.inj_xO.
        replace ((2 * Z.pos p) mod 2) with 0
          by (apply (Z.mod_unique _ _ (Z.pos p)); lia).
        simpl. tauto.
    + split; [reflexivity|]. simpl. split; [discriminate|]. intros [H _]. discriminate H.
Qed.

Lemma iter_pos_nat {A} (f : A -> A) (p : positive) (x : A) :
  iter_pos f p x = Nat.iter (Pos.to_nat p) f x.
Proof.
  revert x. induction p as [p IH|p IH|]; intros x; simpl iter_pos.
  - rewrite !IH, Pos2Nat.inj_xI.
    replace (S (2 * Pos.to_nat p))%nat with (Pos.to_nat p + Pos.to_nat p + 1)%nat by lia.
    rewrite !Nat.iter_add. reflexivity.
  - rewrite !IH, Pos2Nat.inj_xO.
    replace (2 * Pos.to_nat p)%nat with (Pos.to_nat p + Pos.to_nat p)%nat by lia.
    rewrite Nat.iter_add. reflexivity.
  - reflexivity.
Qed.

Lemma mod_pow2_succ (m n : Z) :
  0 <= n -> (m mod 2 ^ (n + 1) = 0 <-> (m mod 2 ^ n = 0 /\ (m / 2 ^ n) mod 2 = 0)).
Proof.
  intros Hn. rewrite Z.pow_add_r by lia. change (2 ^ 1) with 2.
  assert (0 < 2 ^ n) by (apply Z.pow_pos_nonneg; lia).
  rewrite Z.rem_mul_r by lia.
  pose proof (Z.mod_pos_bound m (2 ^ n)). pose proof (Z.mod_pos_bound (m / 2 ^ n) 2).
  nia.
Qed.

Lemma shr_iter_spec (n : nat) mrs :
  0 <= shr_m mrs ->
  0 <= shr_m (Nat.iter n shr_1 mrs) /\
  shr_m (Nat.iter n shr_1 mrs) = shr_m mrs / 2 ^ Z.of_nat n /\
  (inexact (Nat.iter n shr_1 mrs) = false <->
   (shr_m mrs mod 2 ^ Z.of_nat n = 0 /\ inexact mrs = false)).
Proof.
  intros Hm. induction n as [|n IH].
  - simpl. rewrite Z.div_1_r, Z.mod_1_r. tauto.
  - destruct IH as (IH0 & IH1 & IH2).
    cbn [Nat.iter nat_rect]. change (nat_rect _ _ _ n) with (Nat.iter n shr_1 mrs).
    destruct (shr_1_spec (Nat.iter n shr_1 mrs) IH0) as [S1 S2].
    rewrite Nat2Z.inj_succ, <- Z.add_1_r.
    assert (0 < 2 ^ Z.of_nat n) by (apply Z.pow_pos_nonneg; lia).
    split; [rewrite S1, IH1; apply Z.div_pos; [apply Z.div_pos|]; lia|].
    split.
    + rewrite S1, IH1, Z.div_div, Z.pow_add_r by lia. reflexivity.
    + rewrite S2, IH2, IH1, mod_pow2_succ by lia. tauto.
Qed.

Lemma shr_spec mrs e n :
  0 <= n -> 0 <= shr_m mrs ->
  exists mrs', shr mrs e n = (mrs', e + n) /\
               shr_m mrs' = shr_m mrs / 2 ^ n /\
               (inexact mrs' = false <-> (shr_m mrs mod 2 ^ n = 0 /\ inexact mrs = false)).
Proof.
  intros Hn Hm. destruct n as [|p|p]; [| |lia].
  - exists mrs. simpl. rewrite Z.add_0_r, Z.div_1_r, Z.mod_1_r. tauto.
  - exists (iter_pos shr_1 p mrs). unfold shr. split; [reflexivity|].
    rewrite iter_pos_nat.
    destruct (shr_iter_spec (Pos.to_nat p) mrs Hm) as (_ & H1 & H2).
    rewrite positive_nat_Z in H1, H2. auto.
Qed.

Lemma round_nearest_even_spec mrs :
  let m' := round_nearest_even (shr_m mrs) (loc_of_shr_record mrs) in
  shr_m mrs <= m' <= shr_m mrs + 1 /\ (inexact mrs = false -> m' = shr_m mrs).
Proof.
  destruct mrs as [m [|] [|]]; unfold inexact; simpl; try (split; [lia|intros; (reflexivity || discriminate)]).
  destruct (Z.even m); split; try lia; discriminate.
Qed.

Lemma pos_iter_xO (m d : positive) : Z.pos (Pos.iter xO m d) = Z.pos m * 2 ^ Z.pos d.
Proof.
  induction d as [|d IH] using Pos.peano_ind.
  - simpl. lia.
  - rewrite Pos.iter_succ, Pos2Z.inj_xO, IH, Pos2Z.inj_succ, Z.pow_succ_r by lia. lia.
Qed.

Lemma shl_align_spec (m : positive) (e e' : Z) :
  e' <= e ->
  Z.pos (fst (shl_align m e e')) = Z.pos m * 2 ^ (e - e') /\ snd (shl_align m e e') = e'.
Proof.
  intros Hle. unfold shl_align.
  destruct (e' - e) as [|d|d] eqn:Ed; [|lia|]; simpl.
  - replace (e - e') with 0 by lia. rewrite Z.pow_0_r. split; lia.
  - rewrite pos_iter_xO. replace (e - e') with (Z.pos d) by lia. auto.
Qed.

Lemma shl_align_id (m : positive) (e e' : Z) : e <= e' -> shl_align m e e' = (m, e).
Proof.
  intros Hle. unfold shl_align. destruct (e' - e) eqn:Ed; try reflexivity. lia.
Qed.


(** ** binary32 results are well formed and bounded *)

Lemma valid_finite s m e :
  F32.valid (S754_finite s m e) = true <-> (fexp32 (digits m + e) = e /\ e <= 104).
Proof.
  unfold F32.valid, valid_binary, bounded, canonical_mantissa.
  rewrite andb_true_iff, Z.eqb_eq, Z.leb_le. reflexivity.
Qed.

Lemma good_zero k s : good k (S754_zero s).
Proof. split; [reflexivity|exact I]. Qed.

Lemma good_mono j k x : j <= k -> good j x -> good k x.
Proof.
  intros Hjk [Hv Hm]. split; [exact Hv|].
  destruct x as [s|s| |s m e]; simpl in *; try assumption.
  destruct Hm as [He Hm]. split; [lia|].
  transitivity (2 ^ (j - e)); [assumption|]. apply Z.pow_le_mono_r; lia.
Qed.

(** Second normalisation step of [binary_round_aux]. *)
Lemma renormalise_good s q e1 k :
  -149 <= e1 -> e1 <= k -> k <= 127 ->
  Z.pos q <= 2 ^ (k - e1) ->
  e1 <= fexp32 (digits q + e1) ->
  good k (let '(mrs'', e'') := shr_fexp F32.prec F32.emax (Z.pos q) e1 loc_Exact in
          match shr_m mrs'' with
          | Z0 => S754_zero s
          | Z.pos m => if e'' <=? F32.emax - F32.prec then S754_finite s m e'' else S754_infinity s
          | Z.neg _ => S754_nan
          end).
Proof.
  intros He1 Hek Hk Hq Hn2.
  pose proof (digits_bounds q) as [Dlo Dhi]. pose proof (digits_pos q) as Dp.
  pose proof (digits_le_of_le q (k - e1) ltac:(lia) Hq) as Hd2.
  unfold shr_fexp. change (Zdigits2 (Z.pos q)) with (digits q). rewrite fexp32_eq.
  set (d2 := digits q) in *. set (e3 := fexp32 (d2 + e1)) in *.
  destruct (shr_spec (shr_record_of_loc (Z.pos q) loc_Exact) e1 (e3 - e1))
    as (mrs2 & E2 & M2 & _); [lia|simpl; lia|].
  rewrite E2. simpl shr_m in M2. replace (e1 + (e3 - e1)) with e3 by lia.
  assert (Hn2' : e3 - e1 = 0 \/ (0 < e3 - e1 /\ e3 - e1 = d2 - 24)).
  { unfold e3, fexp32 in *. lia. }
  assert (He3 : e3 <= k /\ e3 <= 104) by (unfold e3, fexp32 in *; lia).
  assert (Hlo3 : 2 ^ (d2 - (e3 - e1) - 1) <= Z.pos q / 2 ^ (e3 - e1)).
  { replace (d2 - (e3 - e1) - 1) with (d2 - 1 - (e3 - e1)) by lia.
    apply div_pow2_ge; lia. }
  assert (Hhi3 : Z.pos q / 2 ^ (e3 - e1) < 2 ^ (d2 - (e3 - e1))).
  { apply div_pow2_lt; lia. }
  assert (Hmag3 : Z.pos q / 2 ^ (e3 - e1) <= 2 ^ (k - e3)).
  { replace (k - e3) with (k - e1 - (e3 - e1)) by lia. apply div_pow2_le; lia. }
  assert (0 < 2 ^ (d2 - (e3 - e1) - 1)) by (apply pow2_pos; lia).
  rewrite M2. destruct (Z.pos q / 2 ^ (e3 - e1)) as [|m3|m3] eqn:Em3; [lia| |lia].
  change (F32.emax - F32.prec) with 104.
  destruct (Z.leb_spec e3 104); [|lia].
  split.
  - apply valid_finite. split; [|lia].
    rewrite (digits_unique m3 (d2 - (e3 - e1))) by lia.
    replace (d2 - (e3 - e1) + e3) with (d2 + e1) by lia. reflexivity.
  - simpl. lia.
Qed.

Lemma round_aux_good s mx ex k :
  ex <= fexp32 (digits mx + ex) -> ex <= k -> Z.pos mx <= 2 ^ (k - ex) ->
  -149 <= k <= 127 ->
  good k (binary_round_aux F32.prec F32.emax s (Z.pos mx) ex loc_Exact).
Proof.
  intros Hn Hek Hmag Hk.
  pose proof (digits_bounds mx) as [Dlo Dhi]. pose proof (digits_pos mx) as Dp.
  pose proof (digits_le_of_le mx (k - ex) ltac:(lia) Hmag) as HD.
  unfold binary_round_aux.
  unfold shr_fexp at 1. change (Zdigits2 (Z.pos mx)) with (digits mx). rewrite fexp32_eq.
  set (dx := digits mx) in *. set (e1 := fexp32 (dx + ex)) in *.
  assert (He1 : -149 <= e1 /\ e1 <= k) by (unfold e1, fexp32; lia).
  destruct (shr_spec (shr_record_of_loc (Z.pos mx) loc_Exact) ex (e1 - ex))
    as (mrs1 & E1 & M1 & X1); [lia|simpl; lia|].
  rewrite E1. simpl shr_m in M1, X1. replace (ex + (e1 - ex)) with e1 by lia.
  pose proof (round_nearest_even_spec mrs1) as [R1 R2]. cbv zeta in R1, R2.
  set (m2 := round_nearest_even (shr_m mrs1) (loc_of_shr_record mrs1)) in *.
  assert (Hm1 : 0 <= shr_m mrs1 <= 2 ^ (k - e1)).
  { rewrite M1. split; [apply Z.div_pos; [lia|apply pow2_pos; lia]|].
    replace (k - e1) with (k - ex - (e1 - ex)) by lia. apply div_pow2_le; lia. }
  assert (Hm2 : m2 <= 2 ^ (k - e1)).
  { destruct (Z.eq_dec (shr_m mrs1) (2 ^ (k - e1))) as [Heq|Hneq]; [|lia].
    rewrite R2; [lia|]. apply X1. split; [|reflexivity].
    assert (Z.pos mx = 2 ^ (k - e1) * 2 ^ (e1 - ex)) as ->.
    { pose proof (pow2_pos (e1 - ex) ltac:(lia)).
      pose proof (Z.mul_div_le (Z.pos mx) (2 ^ (e1 - ex)) ltac:(lia)).
      rewrite <- M1, Heq in H0.
      rewrite (pow2_split (k - ex) (e1 - ex)) in Hmag by lia.
      replace (k - ex - (e1 - ex)) with (k - e1) in Hmag by lia. nia. }
    apply Z.mod_mul. pose proof (pow2_pos (e1 - ex) ltac:(lia)). lia. }
  assert (Hnorm : -149 < e1 -> 2 ^ 23 <= m2).
  { intros Hnz. assert (dx - (e1 - ex) = 24) by (unfold e1, fexp32 in *; lia).
    transitivity (shr_m mrs1); [|lia]. rewrite M1.
    replace 23 with (dx - 1 - (e1 - ex)) by lia. apply div_pow2_ge; lia. }
  destruct m2 as [|q|q] eqn:Em2; [| |lia].
  - unfold shr_fexp. change (Zdigits2 0) with 0. rewrite fexp32_eq.
    assert (Hle : fexp32 (0 + e1) - e1 <= 0) by (unfold fexp32; lia).
    destruct (fexp32 (0 + e1) - e1) eqn:En; [| lia |]; simpl;
      (split; [reflexivity|exact I]).
  - apply renormalise_good; try lia.
    destruct (Z.eq_dec e1 (-149)) as [->|Hne]; [unfold fexp32; lia|].
    assert (24 <= digits q) by (apply (digits_ge_of_ge q 23); lia).
    unfold fexp32. lia.
Qed.

(** A canonical mantissa scaled by a power of two rounds to itself. *)
Lemma round_aux_exact s m e j :
  0 <= j -> fexp32 (digits m + e) = e -> e <= 104 ->
  binary_round_aux F32.prec F32.emax s (Z.pos m * 2 ^ j) (e - j) loc_Exact = S754_finite s m e.
Proof.
  intros Hj Hcan He.
  pose proof (digits_bounds m) as [Dlo Dhi]. pose proof (digits_pos m) as Dp.
  pose proof (pow2_pos j Hj) as Hpj.
  destruct (Z.pos m * 2 ^ j) as [|mx|mx] eqn:Emx; [lia| |lia].
  assert (Hdx : digits mx = digits m + j).
  { apply digits_unique. rewrite <- Emx. split.
    - replace (digits m + j - 1) with (digits m - 1 + j) by lia.
      rewrite Z.pow_add_r by lia. nia.
    - rewrite Z.pow_add_r by lia. nia. }
  unfold binary_round_aux.
  unfold shr_fexp at 1. change (Zdigits2 (Z.pos mx)) with (digits mx). rewrite fexp32_eq.
  rewrite Hdx. replace (digits m + j + (e - j)) with (digits m + e) by lia. rewrite Hcan.
  destruct (shr_spec (shr_record_of_loc (Z.pos mx) loc_Exact) (e - j) (e - (e - j)))
    as (mrs1 & E1 & M1 & X1); [lia|simpl; lia|].
  rewrite E1. simpl shr_m in M1, X1. replace (e - j + (e - (e - j))) with e by lia.
  replace (e - (e - j)) with j in M1, X1 by lia.
  rewrite <- Emx in M1, X1. rewrite Z.div_mul in M1 by lia. rewrite Z.mod_mul in X1 by lia.
  pose proof (round_nearest_even_spec mrs1) as [_ R2]. cbv zeta in R2.
  rewrite R2 by (apply X1; split; reflexivity). rewrite M1.
  unfold shr_fexp. change (Zdigits2 (Z.pos m)) with (digits m). rewrite fexp32_eq, Hcan.
  rewrite Z.sub_diag. simpl.
  change (F32.emax - F32.prec) with 104. destruct (Z.leb_spec e 104); [reflexivity|lia].
Qed.

Lemma binary_round_good s p e k :
  e <= k -> Z.pos p <= 2 ^ (k - e) -> -149 <= k <= 127 ->
  good k (binary_round F32.prec F32.emax s p e).
Proof.
  intros Hek Hp Hk. unfold binary_round.
  change (Z.pos (digits2_pos p)) with (digits p). rewrite fexp32_eq.
  set (t := fexp32 (digits p + e)).
  destruct (Z_le_gt_dec e t) as [Hle|Hgt].
  - rewrite shl_align_id by exact Hle. apply round_aux_good; fold t; lia.
  - destruct (shl_align_spec p e t ltac:(lia)) as [Hm He].
    destruct (shl_align p e t) as [mz ez]. cbn [fst snd] in Hm, He. subst ez.
    pose proof (pow2_pos (e - t) ltac:(lia)).
    pose proof (digits_bounds p) as [Dlo Dhi]. pose proof (digits_pos p).
    assert (Hd : digits mz = digits p + (e - t)).
    { apply digits_unique. rewrite Hm. split.
      - replace (digits p + (e - t) - 1) with (digits p - 1 + (e - t)) by lia.
        rewrite Z.pow_add_r by lia. apply Z.mul_le_mono_nonneg_r; lia.
      - rewrite Z.pow_add_r by lia. apply Z.mul_lt_mono_pos_r; lia. }
    assert (t <= k) by lia.
    apply round_aux_good; try lia.
    + rewrite Hd. replace (digits p + (e - t) + t) with (digits p + e) by lia. fold t. lia.
    + rewrite Hm. rewrite (pow2_split (k - t) (e - t)) by lia.
      replace (k - t - (e - t)) with (k - e) by lia. nia.
Qed.

Lemma binary_normalize_good z e k :
  e <= k -> Z.abs z <= 2 ^ (k - e) -> -149 <= k <= 127 ->
  good k (binary_normalize F32.prec F32.emax z e false).
Proof.
  intros Hek Hz Hk. destruct z as [|p|p]; simpl.
  - apply good_zero.
  - apply binary_round_good; simpl in Hz; lia.
  - apply binary_round_good; simpl in Hz; lia.
Qed.

Lemma of_int_good z k : 0 <= k <= 127 -> Z.abs z <= 2 ^ k -> good k (F32.of_int z).
Proof.
  intros Hk Hz. unfold F32.of_int. apply binary_normalize_good; try lia.
  rewrite Z.sub_0_r. exact Hz.
Qed.

Lemma mul_good j k x y :
  good j x -> good k y -> -149 <= j + k <= 127 -> good (j + k) (F32.mul x y).
Proof.
  intros [Vx Mx] [Vy My] Hjk.
  destruct x as [sx|sx| |sx mx ex]; simpl in Mx; try contradiction;
    destruct y as [sy|sy| |sy my ey]; simpl in My; try contradiction;
    try apply good_zero.
  apply valid_finite in Vx, Vy. destruct Vx as [Cx Ex], Vy as [Cy Ey].
  destruct Mx as [Mx1 Mx2], My as [My1 My2].
  unfold F32.mul, SFmul. apply round_aux_good; try lia.
  - pose proof (digits_mul_ge mx my). pose proof (digits_pos mx). pose proof (digits_pos my).
    unfold fexp32 in *. lia.
  - rewrite Pos2Z.inj_mul.
    replace (j + k - (ex + ey)) with (j - ex + (k - ey)) by lia.
    rewrite Z.pow_add_r by lia.
    pose proof (pow2_pos (j - ex) ltac:(lia)). pose proof (pow2_pos (k - ey) ltac:(lia)). nia.
Qed.

Lemma aligned_sum_good (sx sy : bool) (mx my : positive) (ex ey k : Z) (z : Z) :
  ex <= k -> Z.pos mx <= 2 ^ (k - ex) -> ey <= k -> Z.pos my <= 2 ^ (k - ey) ->
  -149 <= k -> k + 1 <= 127 ->
  Z.abs z <= Z.pos (fst (shl_align mx ex (Z.min ex ey))) + Z.pos (fst (shl_align my ey (Z.min ex ey))) ->
  good (k + 1) (binary_normalize F32.prec F32.emax z (Z.min ex ey) false).
Proof.
  intros Hx1 Hx2 Hy1 Hy2 Hk1 Hk2 Hz.
  set (ez := Z.min ex ey) in *.
  destruct (shl_align_spec mx ex ez ltac:(unfold ez; lia)) as [Ax _].
  destruct (shl_align_spec my ey ez ltac:(unfold ez; lia)) as [Ay _].
  rewrite Ax, Ay in Hz.
  apply binary_normalize_good; try (unfold ez; lia).
  assert (Z.pos mx * 2 ^ (ex - ez) <= 2 ^ (k - ez)).
  { rewrite (pow2_split (k - ez) (ex - ez)) by (unfold ez; lia).
    replace (k - ez - (ex - ez)) with (k - ex) by lia.
    pose proof (pow2_pos (ex - ez) ltac:(unfold ez; lia)). nia. }
  assert (Z.pos my * 2 ^ (ey - ez) <= 2 ^ (k - ez)).
  { rewrite (pow2_split (k - ez) (ey - ez)) by (unfold ez; lia).
    replace (k - ez - (ey - ez)) with (k - ey) by lia.
    pose proof (pow2_pos (ey - ez) ltac:(unfold ez; lia)). nia. }
  replace (k + 1 - ez) with (k - ez + 1) by lia.
  rewrite Z.pow_add_r by (unfold ez; lia). change (2 ^ 1) with 2. lia.
Qed.

Lemma add_good k x y :
  good k x -> good k y -> -149 <= k -> k + 1 <= 127 -> good (k + 1) (F32.add x y).
Proof.
  intros Gx Gy Hk1 Hk2.
  pose proof (good_mono k (k + 1) x ltac:(lia) Gx) as Gx'.
  pose proof (good_mono k (k + 1) y ltac:(lia) Gy) as Gy'.
  destruct Gx as [Vx Mx], Gy as [Vy My].
  destruct x as [sx|sx| |sx mx ex]; simpl in Mx; try contradiction;
    destruct y as [sy|sy| |sy my ey]; simpl in My; try contradiction;
    unfold F32.add, SFadd.
  - destruct sx, sy; apply good_zero.
  - exact Gy'.
  - exact Gx'.
  - destruct Mx, My. apply (aligned_sum_good sx sy mx my ex ey k); try lia.
    change (IntDef.Z.min ex ey) with (Z.min ex ey).
    destruct sx, sy; cbn [cond_Zopp]; lia.
Qed.

Lemma sub_good k x y :
  good k x -> good k y -> -149 <= k -> k + 1 <= 127 -> good (k + 1) (F32.sub x y).
Proof.
  intros Gx Gy Hk1 Hk2.
  pose proof (good_mono k (k + 1) x ltac:(lia) Gx) as Gx'.
  pose proof (good_mono k (k + 1) y ltac:(lia) Gy) as Gy'.
  destruct Gx as [Vx Mx], Gy as [Vy My].
  destruct x as [sx|sx| |sx mx ex]; simpl in Mx; try contradiction;
    destruct y as [sy|sy| |sy my ey]; simpl in My; try contradiction;
    unfold F32.sub, SFsub.
  - destruct sx, sy; apply good_zero.
  - destruct Gy' as [Vy' My']. split; [exact Vy'|exact My'].
  - exact Gx'.
  - destruct Mx, My. apply (aligned_sum_good sx sy mx my ex ey k); try lia.
    change (IntDef.Z.min ex ey) with (Z.min ex ey).
    destruct sx, sy; cbn [cond_Zopp]; lia.
Qed.

(** A well-formed level between [0.0f] and [1.0f]. *)
Lemma level_good (level : float) :
  F32.valid level = true ->
  (F32.of_int 0 <=? level)%f32 = true -> (level <=? F32.of_int 1)%f32 = true ->
  good 0 level.
Proof.
  intros Hv H0 H1. split; [exact Hv|].
  rewrite zero_eq in H0. rewrite one_eq in H1.
  destruct level as [s|s| |s m e]; simpl.
  - exact I.
  - destruct s; discriminate.
  - discriminate.
  - destruct s; [discriminate H0|].
    unfold F32.leb in H1.
    pose proof (SFleb_abs_finite false m e 8388608 (-23)) as Hle.
    cbn [SFabs] in Hle. rewrite Hle in H1. clear Hle.
    apply negb_true_iff, cmp_mag_not_gt in H1.
    apply valid_finite in Hv. destruct Hv as [Hc _].
    pose proof (digits_bounds m) as [_ Dhi]. pose proof (digits_pos m).
    assert (digits m <= 24) by (unfold fexp32 in Hc; lia).
    assert (Z.pos m < 2 ^ 24).
    { eapply Z.lt_le_trans; [exact Dhi|]. apply Z.pow_le_mono_r; lia. }
    destruct H1 as [Hlt|[-> Hm]].
    + split; [lia|]. transitivity (2 ^ 24); [lia|]. apply Z.pow_le_mono_r; lia.
    + split; [lia|]. change (2 ^ (0 - -23)) with 8388608. exact Hm.
Qed.

(** The integer part of a well-formed float larger than ten in magnitude. *)
Lemma trunc_mag_bounds s m e k :
  F32.valid (S754_finite s m e) = true -> mag_le k (S754_finite s m e) -> 0 <= k ->
  is_Gt (cmp_mag_ten m e) = true ->
  10 <= (if e <? 0 then Z.pos m / 2 ^ (- e) else Z.pos m * 2 ^ e) <= 2 ^ k.
Proof.
  intros Hv [Hek Hm] Hk Hgt.
  apply valid_finite in Hv. destruct Hv as [Hc _].
  apply cmp_mag_gt in Hgt.
  pose proof (digits_bounds m) as [Dlo Dhi]. pose proof (digits_pos m).
  destruct (Z.ltb_spec e 0) as [Hneg|Hpos].
  - split.
    + destruct Hgt as [Hlt|[-> Hm']].
      * assert (Hd : digits m = 24) by (unfold fexp32 in Hc; lia).
        rewrite Hd in Dlo. change (24 - 1) with 23 in Dlo.
        transitivity (2 ^ (23 - - e)); [|apply div_pow2_ge; lia].
        transitivity (2 ^ 4); [cbv; discriminate|apply Z.pow_le_mono_r; lia].
      * change (- -20) with 20. apply Z.div_le_lower_bound; [cbv; reflexivity|].
        change (2 ^ 20 * 10) with 10485760. lia.
    + pose proof (div_pow2_le (Z.pos m) (k - e) (- e) ltac:(lia) Hm) as Hup.
      replace (k - e - - e) with k in Hup by lia. exact Hup.
  - split.
    + assert (Hd : digits m = 24) by (unfold fexp32 in Hc; lia).
      rewrite Hd in Dlo. change (2 ^ (24 - 1)) with 8388608 in Dlo.
      pose proof (pow2_pos e Hpos). nia.
    + rewrite (pow2_split k e) by lia. pose proof (pow2_pos e Hpos). nia.
Qed.

Lemma mul_neg_one s m e :
  F32.valid (S754_finite s m e) = true ->
  (S754_finite s m e * F32.of_int (-1))%f32 = S754_finite (negb s) m e.
Proof.
  intros Hv. apply valid_finite in Hv. destruct Hv as [Hc He].
  rewrite neg_one_eq. unfold F32.mul, SFmul.
  rewrite xorb_true_r, Pos2Z.inj_mul.
  change (Z.pos 8388608) with (2 ^ 23). change (e + -23) with (e - 23).
  apply round_aux_exact; [lia|exact Hc|exact He].
Qed.

Lemma to_long_finite s m e z :
  z = cond_Zopp s (if e <? 0 then Z.pos m / 2 ^ (- e) else Z.pos m * 2 ^ e) ->
  - 2147483648 <= z <= 2147483647 ->
  F32.to_long (S754_finite s m e) = Some z.
Proof.
  intros -> Hz. unfold F32.to_long, F32.to_range, F32.trunc.
  change (- 2 ^ 31) with (-2147483648). change (2 ^ 31 - 1) with 2147483647.
  destruct (Z.leb_spec (-2147483648)
              (cond_Zopp s (if e <? 0 then Z.pos m / 2 ^ (- e) else Z.pos m * 2 ^ e))); [|lia].
  destruct (Z.leb_spec (cond_Zopp s (if e <? 0 then Z.pos m / 2 ^ (- e) else Z.pos m * 2 ^ e))
              2147483647); [|lia].
  reflexivity.
Qed.


(** ** Machine integers *)

Lemma wrap_signed_small w z :
  0 < w -> - 2 ^ (w - 1) <= z < 2 ^ (w - 1) -> wrap_signed w z = z.
Proof.
  intros Hw Hz. unfold wrap_signed.
  rewrite Z.mod_small; [lia|].
  replace (2 ^ w) with (2 * 2 ^ (w - 1)); [lia|].
  rewrite <- Z.pow_succ_r by lia. f_equal. lia.
Qed.

Lemma to_int32_small z : - 2147483648 <= z < 2147483648 -> to_int32 z = z.
Proof. intros. apply wrap_signed_small; [lia|]. change (2 ^ (32 - 1)) with 2147483648. lia. Qed.

Lemma to_int16_small z : - 32768 <= z < 32768 -> to_int16 z = z.
Proof. intros. apply wrap_signed_small; [lia|]. change (2 ^ (16 - 1)) with 32768. lia. Qed.

(** [map] on an error magnitude the regulators can see. *)
Lemma map_positive x in_max out_min :
  10 <= x <= 8192 -> 100 <= in_max <= 1000 -> 1 <= out_min <= 255 ->
  exists v, map x 0 in_max out_min 255 = Some v /\ 0 < to_int16 v.
Proof.
  intros Hx Hi Ho. unfold map.
  destruct (Z.eqb_spec (in_max - 0) 0) as [|_]; [lia|].
  eexists; split; [reflexivity|].
  rewrite !Z.sub_0_r.
  rewrite (to_int32_small x), (to_int32_small (255 - out_min)), (to_int32_small in_max) by lia.
  assert (0 <= x * (255 - out_min) <= 8192 * 254) by nia.
  rewrite (to_int32_small (x * (255 - out_min))) by lia.
  rewrite Z.quot_div_nonneg by lia.
  assert (0 <= x * (255 - out_min) / in_max <= 8192 * 254 / 100).
  { split; [apply Z.div_pos; lia|].
    transitivity (x * (255 - out_min) / 100).
    - apply Z.div_le_compat_l; lia.
    - apply Z.div_le_mono; lia. }
  change (8192 * 254 / 100) with 20807 in H0.
  rewrite (to_int32_small (x * (255 - out_min) / in_max)) by lia.
  rewrite to_int32_small by lia. rewrite to_int16_small by lia. lia.
Qed.


(** ** The regulators, reduced to their branch *)

Lemma with_trace_app (w : World) (e1 e2 : Event) :
  with_trace (with_trace w (trace w ++ [e1])) (trace (with_trace w (trace w ++ [e1])) ++ [e2])
  = with_trace w (trace w ++ [e1; e2]).
Proof.
  unfold with_trace; simpl. rewrite <- app_assoc. reflexivity.
Qed.

Lemma setPressureMiddle_run (desiredP inMin inMax : float) (w : World) :
  setPressureMiddle desiredP inMin inMax w =
  match channel_events PIN_PUMP_BASE PIN_VALVE_BASE 110 50 (errorMiddle desiredP w) with
  | Some evs =>
      Some (tt, with_prevDesiredPMiddle (with_trace w (trace w ++ evs))
                                        (F32.of_int (to_int16 (adc w A1))))
  | None => None
  end.
Proof.
  unfold setPressureMiddle, channel_events, errorMiddle, pressure_error.
  unfold bind at 1. unfold analogRead at 1.
  set (raw := to_int16 (adc w A1)).
  set (err := (F32.of_int raw - _)%f32).
  change (F32.to_long (F32.of_int 110)) with (Some 110).
  unfold bind at 1.
  destruct (err <? F32.of_int (-10))%f32.
  - unfold bind, defined, analogWrite, emit, modify.
    destruct (F32.to_long _); [|reflexivity].
    destruct (map _ _ _ _ _); [|reflexivity].
    rewrite with_trace_app. reflexivity.
  - destruct (F32.of_int 10 <? err)%f32.
    + unfold bind, defined, analogWrite, emit, modify.
      destruct (F32.to_long _); [|reflexivity].
      destruct (map _ _ _ _ _); [|reflexivity].
      rewrite with_trace_app. reflexivity.
    + unfold bind, defined, analogWrite, emit, modify.
      rewrite with_trace_app. reflexivity.
Qed.

Lemma setPressureLeaves_run (desiredP inMin inMax : float) (w : World) :
  setPressureLeaves desiredP inMin inMax w =
  match channel_events PIN_PUMP_LEAVES PIN_VALVE_LEAVES 600 100 (errorLeaves desiredP w) with
  | Some evs => Some (tt, with_trace w (trace w ++ evs))
  | None => None
  end.
Proof.
  unfold setPressureLeaves, channel_events, errorLeaves, pressure_error.
  unfold bind at 1. unfold analogRead at 1.
  set (raw := to_int16 (adc w A2)).
  set (err := (F32.of_int raw - _)%f32).
  change (F32.to_long (F32.of_int 600)) with (Some 600).
  destruct (err <? F32.of_int (-10))%f32.
  - unfold bind, defined, analogWrite, emit.
    destruct (F32.to_long _); [|reflexivity].
    destruct (map _ _ _ _ _); [|reflexivity].
    rewrite with_trace_app. reflexivity.
  - destruct (F32.of_int 10 <? err)%f32.
    + unfold bind, defined, analogWrite, emit.
      destruct (F32.to_long _); [|reflexivity].
      destruct (map _ _ _ _ _); [|reflexivity].
      rewrite with_trace_app. reflexivity.
    + unfold bind, defined, analogWrite, emit.
      rewrite with_trace_app. reflexivity.
Qed.

Lemma pinWrites_pair (pin a b x y : Z) :
  pinWrites pin [EvAnalogWrite a x; EvAnalogWrite b y] =
  (if a =? pin then [x] else []) ++ (if b =? pin then [y] else []).
Proof.
  unfold pinWrites; simpl. rewrite app_nil_r. reflexivity.
Qed.

Lemma channel_events_exclusive (pumpPin valvePin in_max pumpLo : Z) (error : float)
      (evs : list Event) :
  pumpPin <> valvePin ->
  channel_events pumpPin valvePin in_max pumpLo error = Some evs ->
  exclusive pumpPin valvePin evs.
Proof.
  intros Hne Hrun. unfold channel_events in Hrun.
  assert (Hpv : (pumpPin =? valvePin) = false) by (apply Z.eqb_neq; exact Hne).
  assert (Hvp : (valvePin =? pumpPin) = false) by (apply Z.eqb_neq; congruence).
  destruct (error <? F32.of_int (-10))%f32.
  - destruct (F32.to_long _) as [x|]; [|discriminate].
    destruct (map _ _ _ _ _) as [v|]; [|discriminate].
    injection Hrun as <-. exists (to_int16 v), 0.
    rewrite !pinWrites_pair, !Z.eqb_refl, Hpv, Hvp. simpl. auto.
  - destruct (F32.of_int 10 <? error)%f32.
    + destruct (F32.to_long _) as [x|]; [|discriminate].
      destruct (map _ _ _ _ _) as [v|]; [|discriminate].
      injection Hrun as <-. exists 0, (to_int16 v).
      rewrite !pinWrites_pair, !Z.eqb_refl, Hpv, Hvp. simpl. auto.
    + injection Hrun as <-. exists 0, 0.
      rewrite !pinWrites_pair, !Z.eqb_refl, Hpv, Hvp. simpl. auto.
Qed.

Lemma channel_events_hold (pumpPin valvePin in_max pumpLo : Z) (error : float) :
  (F32.abs error <=? F32.of_int 10)%f32 = true ->
  channel_events pumpPin valvePin in_max pumpLo error
  = Some [EvAnalogWrite pumpPin 0; EvAnalogWrite valvePin 0].
Proof.
  intros H. destruct (deadband_holds error H) as [H1 H2].
  unfold channel_events. rewrite H1, H2. reflexivity.
Qed.

(** The branch of a regulator on a well-formed error of magnitude at most
    [2^13]: which actuator it drives, and that the command is positive. *)
Lemma channel_events_active pumpPin valvePin in_max pumpLo error :
  good 13 error -> 100 <= in_max <= 1000 -> 1 <= pumpLo <= 255 ->
  ((error <? F32.of_int (-10))%f32 = true ->
   exists p, channel_events pumpPin valvePin in_max pumpLo error
             = Some [EvAnalogWrite pumpPin p; EvAnalogWrite valvePin 0] /\ 0 < p) /\
  ((F32.of_int 10 <? error)%f32 = true ->
   exists v, channel_events pumpPin valvePin in_max pumpLo error
             = Some [EvAnalogWrite valvePin v; EvAnalogWrite pumpPin 0] /\ 0 < v) /\
  ((error <? F32.of_int (-10))%f32 = false -> (F32.of_int 10 <? error)%f32 = false ->
   channel_events pumpPin valvePin in_max pumpLo error
   = Some [EvAnalogWrite pumpPin 0; EvAnalogWrite valvePin 0] /\
   (F32.abs error <=? F32.of_int 10)%f32 = true).
Proof.
  intros [Hv Hm] Hi Ho. unfold channel_events.
  destruct error as [s|s| |s m e]; simpl in Hm; try contradiction.
  - rewrite neg_ten_eq, ten_eq. repeat split; discriminate.
  - rewrite ltb_neg_ten, ltb_ten, leb_abs_ten.
    assert (Hpow : 2 ^ 13 = 8192) by reflexivity.
    destruct (is_Gt (cmp_mag_ten m e)) eqn:Hgt.
    + pose proof (trunc_mag_bounds s m e 13 Hv Hm ltac:(lia) Hgt) as Hb. rewrite Hpow in Hb.
      destruct s; cbn [andb negb].
      * split; [|split; intros; discriminate]. intros _.
        rewrite (mul_neg_one true m e Hv). cbn [negb].
        rewrite (to_long_finite false m e _ eq_refl) by (cbn [cond_Zopp]; lia).
        cbn [cond_Zopp].
        destruct (map_positive _ in_max pumpLo Hb Hi Ho) as (v & -> & Hpos).
        exists (to_int16 v). auto.
      * split; [intros; discriminate|]. split; [|intros; discriminate]. intros _.
        rewrite (to_long_finite false m e _ eq_refl) by (cbn [cond_Zopp]; lia).
        cbn [cond_Zopp].
        destruct (map_positive _ in_max 230 Hb Hi ltac:(lia)) as (v & -> & Hpos).
        exists (to_int16 v). auto.
    + rewrite !andb_false_r. repeat split; discriminate.
Qed.

Lemma skipn_app_length {A} (l evs : list A) : skipn (List.length l) (l ++ evs) = evs.
Proof. induction l as [|x l IH]; simpl; auto. Qed.

Lemma setPressureMiddle_events (desiredP inMin inMax : float) (w : World) :
  newEvents (setPressureMiddle desiredP inMin inMax) w
  = channel_events PIN_PUMP_BASE PIN_VALVE_BASE 110 50 (errorMiddle desiredP w).
Proof.
  unfold newEvents. rewrite setPressureMiddle_run.
  destruct (channel_events _ _ _ _ _) as [evs|]; [|reflexivity].
  cbn [trace with_prevDesiredPMiddle with_trace]. rewrite skipn_app_length. reflexivity.
Qed.

Lemma setPressureLeaves_events (desiredP inMin inMax : float) (w : World) :
  newEvents (setPressureLeaves desiredP inMin inMax) w
  = channel_events PIN_PUMP_LEAVES PIN_VALVE_LEAVES 600 100 (errorLeaves desiredP w).
Proof.
  unfold newEvents. rewrite setPressureLeaves_run.
  destruct (channel_events _ _ _ _ _) as [evs|]; [|reflexivity].
  cbn [trace with_trace]. rewrite skipn_app_length. reflexivity.
Qed.

Lemma pressure_error_good (minP maxP : Z) (level : float) (raw : Z) :
  0 <= minP <= 1024 -> 0 <= maxP <= 1024 ->
  level_in_range level -> reading_in_range raw ->
  good 13 (pressure_error (F32.of_int minP) (F32.of_int maxP) level raw).
Proof.
  intros Hmin Hmax (Hv & H0 & H1) Hraw. unfold pressure_error.
  assert (P10 : 2 ^ 10 = 1024) by reflexivity.
  assert (Gmin : good 10 (F32.of_int minP)) by (apply of_int_good; lia).
  assert (Gmax : good 10 (F32.of_int maxP)) by (apply of_int_good; lia).
  assert (Graw : good 10 (F32.of_int raw)) by (apply of_int_good; unfold reading_in_range in Hraw; lia).
  pose proof (level_good level Hv H0 H1) as Glevel.
  pose proof (sub_good 10 _ _ Gmax Gmin ltac:(lia) ltac:(lia)) as Gspan.
  pose proof (mul_good (10 + 1) 0 _ _ Gspan Glevel ltac:(lia)) as Gscaled.
  replace (10 + 1 + 0) with 11 in Gscaled by lia. change (10 + 1) with 11 in Gspan.
  pose proof (add_good 11 _ _ Gscaled (good_mono 10 11 _ ltac:(lia) Gmin) ltac:(lia) ltac:(lia))
    as Gtarget.
  change (11 + 1) with 12 in Gtarget.
  apply (sub_good 12 _ _ (good_mono 10 12 _ ltac:(lia) Graw) Gtarget); lia.
Qed.

Lemma errorMiddle_good (level : float) (w : World) :
  level_in_range level -> reading_in_range (adc w A1) -> good 13 (errorMiddle level w).
Proof.
  intros Hl Hr. unfold errorMiddle.
  rewrite to_int16_small by (unfold reading_in_range in Hr; lia).
  apply pressure_error_good; auto; lia.
Qed.

Lemma errorLeaves_good (level : float) (w : World) :
  level_in_range level -> reading_in_range (adc w A2) -> good 13 (errorLeaves level w).
Proof.
  intros Hl Hr. unfold errorLeaves.
  rewrite to_int16_small by (unfold reading_in_range in Hr; lia).
  apply pressure_error_good; auto; lia.
Qed.

Lemma channel_events_defined pumpPin valvePin in_max pumpLo error :
  good 13 error -> 100 <= in_max <= 1000 -> 1 <= pumpLo <= 255 ->
  channel_events pumpPin valvePin in_max pumpLo error <> None.
Proof.
  intros Hg Hi Ho.
  destruct (channel_events_active pumpPin valvePin in_max pumpLo error Hg Hi Ho) as (H1 & H2 & H3).
  destruct (error <? F32.of_int (-10))%f32 eqn:E1.
  - destruct (H1 eq_refl) as (p & -> & _). discriminate.
  - destruct (F32.of_int 10 <? error)%f32 eqn:E2.
    + destruct (H2 eq_refl) as (v & -> & _). discriminate.
    + destruct (H3 eq_refl eq_refl) as [-> _]. discriminate.
Qed.

Lemma channel_events_drives pumpPin valvePin in_max pumpLo error :
  good 13 error -> 100 <= in_max <= 1000 -> 1 <= pumpLo <= 255 -> pumpPin <> valvePin ->
  drives pumpPin valvePin error (channel_events pumpPin valvePin in_max pumpLo error).
Proof.
  intros Hg Hi Ho Hne.
  destruct (channel_events_active pumpPin valvePin in_max pumpLo error Hg Hi Ho) as (H1 & H2 & H3).
  split; [exact H1|]. split; [exact H2|].
  intros evs Hres Hp Hv.
  assert (Hvp : (valvePin =? pumpPin) = false) by (apply Z.eqb_neq; congruence).
  assert (Hpv : (pumpPin =? valvePin) = false) by (apply Z.eqb_neq; congruence).
  destruct (error <? F32.of_int (-10))%f32 eqn:E1.
  - destruct (H1 eq_refl) as (p & Hrun & Hpos). rewrite Hrun in Hres. injection Hres as <-.
    rewrite pinWrites_pair, Z.eqb_refl, Hvp in Hp. injection Hp as ->. lia.
  - destruct (F32.of_int 10 <? error)%f32 eqn:E2.
    + destruct (H2 eq_refl) as (v & Hrun & Hpos). rewrite Hrun in Hres. injection Hres as <-.
      rewrite pinWrites_pair, Z.eqb_refl, Hpv in Hv. injection Hv as ->. lia.
    + apply (H3 eq_refl eq_refl).
Qed.

(** C1. Each regulator call commands at most one actuator nonzero: among the
    events a call of [setPressureMiddle] or [setPressureLeaves] emits there is
    one write to the pump and one to the valve, and one of the two values is
    zero (both zero is the hold outcome).  On every level in [0,1] and every
    10-bit reading the call is defined. *)
Theorem regulators_exclusive (desiredP inMin inMax : float) (w : World) :
  (forall evs, newEvents (setPressureMiddle desiredP inMin inMax) w = Some evs ->
               exclusive PIN_PUMP_BASE PIN_VALVE_BASE evs) /\
  (forall evs, newEvents (setPressureLeaves desiredP inMin inMax) w = Some evs ->
               exclusive PIN_PUMP_LEAVES PIN_VALVE_LEAVES evs) /\
  (level_in_range desiredP -> reading_in_range (adc w A1) ->
   newEvents (setPressureMiddle desiredP inMin inMax) w <> None) /\
  (level_in_range desiredP -> reading_in_range (adc w A2) ->
   newEvents (setPressureLeaves desiredP inMin inMax) w <> None).
Proof.
  rewrite setPressureMiddle_events, setPressureLeaves_events.
  split; [|split; [|split]].
  - intros evs H. eapply channel_events_exclusive; [|exact H]. discriminate.
  - intros evs H. eapply channel_events_exclusive; [|exact H]. discriminate.
  - intros Hl Hr. apply channel_events_defined; [apply errorMiddle_good; assumption|lia|lia].
  - intros Hl Hr. apply channel_events_defined; [apply errorLeaves_good; assumption|lia|lia].
Qed.

(** C3. When the error (reading minus affine-mapped target) has absolute
    value at most 10, the regulator writes exactly 0 to the pump and 0 to the
    valve. *)
Theorem regulators_hold_in_deadband (desiredP inMin inMax : float) (w : World) :
  ((F32.abs (errorMiddle desiredP w) <=? F32.of_int 10)%f32 = true ->
   newEvents (setPressureMiddle desiredP inMin inMax) w
   = Some [EvAnalogWrite PIN_PUMP_BASE 0; EvAnalogWrite PIN_VALVE_BASE 0]) /\
  ((F32.abs (errorLeaves desiredP w) <=? F32.of_int 10)%f32 = true ->
   newEvents (setPressureLeaves desiredP inMin inMax) w
   = Some [EvAnalogWrite PIN_PUMP_LEAVES 0; EvAnalogWrite PIN_VALVE_LEAVES 0]).
Proof.
  rewrite setPressureMiddle_events, setPressureLeaves_events.
  split; intros H; apply channel_events_hold; exact H.
Qed.

(** C10. For a level in [0,1] and 10-bit readings, a regulator call whose
    error exceeds the deadband drives exactly one actuator with a strictly
    positive command: the pump when the pressure is below the target, the
    valve when it is above; both commands are zero only inside the deadband. *)
Theorem regulators_act_outside_deadband (level inMin inMax : float) (w : World) :
  level_in_range level -> reading_in_range (adc w A1) -> reading_in_range (adc w A2) ->
  drives PIN_PUMP_BASE PIN_VALVE_BASE (errorMiddle level w)
         (newEvents (setPressureMiddle level inMin inMax) w) /\
  drives PIN_PUMP_LEAVES PIN_VALVE_LEAVES (errorLeaves level w)
         (newEvents (setPressureLeaves level inMin inMax) w).
Proof.
  intros Hl H1 H2. rewrite setPressureMiddle_events, setPressureLeaves_events. split.
  - apply channel_events_drives; [apply errorMiddle_good; assumption|lia|lia|discriminate].
  - apply channel_events_drives; [apply errorLeaves_good; assumption|lia|lia|discriminate].
Qed.

Lemma half_in_range : level_in_range (F32.lit 5 10).
Proof. repeat split; vm_compute; reflexivity. Qed.

Lemma regulators_exclusive_witness :
  newEvents (setPressureMiddle (F32.lit 5 10) (F32.of_int 0) (F32.of_int 1)) (example_world 0 1023)
  = Some [EvAnalogWrite PIN_PUMP_BASE 189; EvAnalogWrite PIN_VALVE_BASE 0] /\
  exclusive PIN_PUMP_BASE PIN_VALVE_BASE [EvAnalogWrite PIN_PUMP_BASE 189; EvAnalogWrite PIN_VALVE_BASE 0].
Proof.
  assert (H : newEvents (setPressureMiddle (F32.lit 5 10) (F32.of_int 0) (F32.of_int 1))
                        (example_world 0 1023)
              = Some [EvAnalogWrite PIN_PUMP_BASE 189; EvAnalogWrite PIN_VALVE_BASE 0])
    by (vm_compute; reflexivity).
  split; [exact H|].
  exact (proj1 (regulators_exclusive (F32.lit 5 10) (F32.of_int 0) (F32.of_int 1)
                                     (example_world 0 1023)) _ H).
Defined.

Lemma regulators_hold_in_deadband_witness :
  (F32.abs (errorMiddle (F32.lit 5 10) (example_world 80 1023)) <=? F32.of_int 10)%f32 = true /\
  newEvents (setPressureMiddle (F32.lit 5 10) (F32.of_int 0) (F32.of_int 1)) (example_world 80 1023)
  = Some [EvAnalogWrite PIN_PUMP_BASE 0; EvAnalogWrite PIN_VALVE_BASE 0].
Proof.
  assert (H : (F32.abs (errorMiddle (F32.lit 5 10) (example_world 80 1023)) <=? F32.of_int 10)%f32
              = true) by (vm_compute; reflexivity).
  split; [exact H|].
  exact (proj1 (regulators_hold_in_deadband (F32.lit 5 10) (F32.of_int 0) (F32.of_int 1)
                                            (example_world 80 1023)) H).
Defined.

Lemma regulators_act_outside_deadband_witness :
  level_in_range (F32.lit 5 10) /\
  reading_in_range (adc (example_world 0 1023) A1) /\
  reading_in_range (adc (example_world 0 1023) A2) /\
  drives PIN_PUMP_BASE PIN_VALVE_BASE (errorMiddle (F32.lit 5 10) (example_world 0 1023))
         (newEvents (setPressureMiddle (F32.lit 5 10) (F32.of_int 0) (F32.of_int 1))
                    (example_world 0 1023)) /\
  drives PIN_PUMP_LEAVES PIN_VALVE_LEAVES (errorLeaves (F32.lit 5 10) (example_world 0 1023))
         (newEvents (setPressureLeaves (F32.lit 5 10) (F32.of_int 0) (F32.of_int 1))
                    (example_world 0 1023)).
Proof.
  assert (Hl : level_in_range (F32.lit 5 10)) by (repeat split; vm_compute; reflexivity).
  assert (H1 : reading_in_range (adc (example_world 0 1023) A1))
    by (unfold reading_in_range; simpl; lia).
  assert (H2 : reading_in_range (adc (example_world 0 1023) A2))
    by (unfold reading_in_range; simpl; lia).
  split; [exact Hl|]. split; [exact H1|]. split; [exact H2|].
  exact (regulators_act_outside_deadband (F32.lit 5 10) (F32.of_int 0) (F32.of_int 1)
                                         (example_world 0 1023) Hl H1 H2).
Defined.

(** C4 (the code departs from it). At level 0.5 and a full-scale reading
    (1023) the middle regulator writes 445 to the valve, and at level 0 the
    leaves regulator writes 270: both inputs are in range, both commands are
    above 255. *)
Theorem valve_command_above_pwm_range :
  level_in_range (F32.lit 5 10) /\ level_in_range (F32.of_int 0) /\ reading_in_range 1023 /\
  newEvents (setPressureMiddle (F32.lit 5 10) (F32.of_int 0) (F32.of_int 1)) (example_world 1023 1023)
  = Some [EvAnalogWrite PIN_VALVE_BASE 445; EvAnalogWrite PIN_PUMP_BASE 0] /\
  newEvents (setPressureLeaves (F32.of_int 0) (F32.of_int 0) (F32.of_int 1)) (example_world 1023 1023)
  = Some [EvAnalogWrite PIN_VALVE_LEAVES 270; EvAnalogWrite PIN_PUMP_LEAVES 0].
Proof.
  repeat split; try (vm_compute; reflexivity); unfold reading_in_range; lia.
Qed.

Lemma roulette_select (row : State -> float) (r acc : float) (ns : list State) :
  roulette row r acc ns =
  match find (fun nc => (r <=? snd nc)%f32) (running_sums row acc ns) with
  | Some nc => fst nc
  | None => SAD
  end.
Proof.
  revert acc. induction ns as [|n rest IH]; intros acc; simpl.
  - reflexivity.
  - destruct (r <=? acc + row n)%f32; [reflexivity|apply IH].
Qed.

Lemma In_count_up (n : nat) : forall a k, a <= k < a + Z.of_nat n -> In k (count_up n a).
Proof.
  induction n as [|n IH]; intros a k Hk.
  - simpl in Hk. lia.
  - cbn [count_up]. destruct (Z.eq_dec a k) as [->|Hne]; [left; reflexivity|].
    right. apply IH. lia.
Qed.

Lemma In_draws (k : Z) : 0 <= k < 10000 -> In k draws.
Proof. intros Hk. unfold draws. apply In_count_up. lia. Qed.

Lemma random_range (lo hi : Z) (w : World) :
  lo < hi ->
  exists k, lo <= k < hi /\ random lo hi w = Some (k, with_rng_pos w (S (rng_pos w))).
Proof.
  intros Hlt. unfold random. destruct (Z.leb_spec hi lo); [lia|].
  eexists; split; [|reflexivity].
  pose proof (Z.mod_pos_bound (rng w (rng_pos w) mod 2 ^ 31) (hi - lo) ltac:(lia)). lia.
Qed.

Lemma frand_unit_interval_all :
  forallb (fun k => unit_interval (frand_of (F32.of_int 0) (F32.of_int 1) k)) draws = true.
Proof. vm_compute. reflexivity. Qed.

Lemma frand_unit_interval (k : Z) :
  0 <= k < 10000 -> unit_interval (frand_of (F32.of_int 0) (F32.of_int 1) k) = true.
Proof.
  intros Hk. pose proof frand_unit_interval_all as H.
  rewrite forallb_forall in H. apply H, In_draws, Hk.
Qed.

(** X1. [sampleNextState] draws [r] in [0,1), accumulates the current mode's
    row left to right, and returns the first mode whose cumulative sum is at
    least [r]; for every transition matrix (whatever its rows sum to) and
    every draw it returns one of the five modes, the last one ([SAD]) when
    no cumulative sum reaches [r]. *)
Theorem sampler_is_roulette_wheel (p : State -> State -> float) (s : State) (w : World) :
  (forall k, sampleNextState_of p s k = select (p s) (frand_of (F32.of_int 0) (F32.of_int 1) k)) /\
  (forall k, In (sampleNextState_of p s k) all_states) /\
  (forall k, (forall nc, In nc (running_sums (p s) (F32.of_int 0) all_states) ->
                         (frand_of (F32.of_int 0) (F32.of_int 1) k <=? snd nc)%f32 = false) ->
             sampleNextState_of p s k = SAD) /\
  (exists k, 0 <= k < 10000 /\
             unit_interval (frand_of (F32.of_int 0) (F32.of_int 1) k) = true /\
             sampleNextState s w
             = Some (sampleNextState_of P s k, with_rng_pos w (S (rng_pos w)))).
Proof.
  assert (Hsel : forall k, sampleNextState_of p s k
                           = select (p s) (frand_of (F32.of_int 0) (F32.of_int 1) k)).
  { intros k. unfold sampleNextState_of, select. apply roulette_select. }
  split; [exact Hsel|]. split; [|split].
  - intros k. destruct (sampleNextState_of p s k); simpl; tauto.
  - intros k Hnone. rewrite Hsel. unfold select.
    destruct (find _ _) as [nc|] eqn:Hf; [|reflexivity].
    apply find_some in Hf. destruct Hf as [Hin Hle]. rewrite (Hnone nc Hin) in Hle. discriminate.
  - destruct (random_range 0 10000 w ltac:(lia)) as (k & Hk & Hr).
    exists k. split; [exact Hk|]. split; [apply frand_unit_interval; exact Hk|].
    unfold sampleNextState, bind. rewrite Hr. reflexivity.
Qed.

Lemma DWELL_of_seconds (s : State) :
  DWELL s = {| lo := F32.of_int (fst (DWELL_SECONDS s)); hi := F32.of_int (snd (DWELL_SECONDS s)) |}.
Proof. destruct s; reflexivity. Qed.

Lemma In_all_states (s : State) : In s all_states.
Proof. destruct s; simpl; tauto. Qed.

Lemma dwell_check_all : forallb dwell_check draws = true.
Proof. vm_compute. reflexivity. Qed.

Lemma dwell_in_range_unit (n : Z) (s : State) (k : Z) :
  dwell_in_range n s k
  = dwell_within n s (dwell_of_unit (F32.of_int n) s (F32.of_int k / F32.of_int 10000)%f32).
Proof. reflexivity. Qed.

Lemma dwell_check_inv (k : Z) :
  0 <= k < 10000 ->
  (forall s, dwell_in_range 1 s k = true) /\ dwell_in_range 2 ANGRY k = true.
Proof.
  intros Hk. pose proof dwell_check_all as Hall.
  rewrite forallb_forall in Hall. specialize (Hall k (In_draws k Hk)).
  unfold dwell_check in Hall. cbv zeta in Hall.
  apply andb_true_iff in Hall. destruct Hall as [H1 H2]. split.
  - intros s. rewrite forallb_forall in H1. rewrite dwell_in_range_unit.
    apply H1, In_all_states.
  - rewrite dwell_in_range_unit. exact H2.
Qed.

Lemma dwell_in_range_speed_1 (s : State) (k : Z) :
  0 <= k < 10000 -> dwell_in_range 1 s k = true.
Proof. intros Hk. apply (proj1 (dwell_check_inv k Hk)). Qed.

Lemma dwell_in_range_angry_2 (k : Z) : 0 <= k < 10000 -> dwell_in_range 2 ANGRY k = true.
Proof. intros Hk. apply (proj2 (dwell_check_inv k Hk)). Qed.

Lemma dwell_in_range_inv (n : Z) (s : State) (k : Z) :
  dwell_in_range n s k = true ->
  exists d, sampleDwellMillis_of (F32.of_int n) s k = Some d /\
            1000 * fst (DWELL_SECONDS s) <= n * d <= 1000 * snd (DWELL_SECONDS s).
Proof.
  unfold dwell_in_range. destruct (sampleDwellMillis_of _ _ _) as [d|]; [|discriminate].
  intros H. apply andb_true_iff in H. destruct H as [H1 H2].
  apply Z.leb_le in H1, H2. exists d. auto.
Qed.

Lemma sampleDwellMillis_run (s : State) (w : World) :
  exists k, 0 <= k < 10000 /\
    sampleDwellMillis s w =
    match sampleDwellMillis_of (SPEED_FACTOR w) s k with
    | Some d => Some (d, with_rng_pos w (S (rng_pos w)))
    | None => None
    end.
Proof.
  destruct (random_range 0 10000 w ltac:(lia)) as (k & Hk & Hr).
  exists k. split; [exact Hk|].
  unfold sampleDwellMillis, bind, get. rewrite Hr. unfold defined.
  cbn [SPEED_FACTOR with_rng_pos]. reflexivity.
Qed.

Lemma dwell_run (n : Z) (t : State) (w : World) :
  (forall k, 0 <= k < 10000 -> dwell_in_range n t k = true) ->
  SPEED_FACTOR w = F32.of_int n ->
  exists d, sampleDwellMillis t w = Some (d, with_rng_pos w (S (rng_pos w))) /\
            1000 * fst (DWELL_SECONDS t) <= n * d <= 1000 * snd (DWELL_SECONDS t).
Proof.
  intros Hall Hs.
  destruct (sampleDwellMillis_run t w) as (k & Hk & Hrun).
  destruct (dwell_in_range_inv n t k (Hall k Hk)) as (d & Hd & Hb).
  exists d. rewrite Hrun, Hs, Hd. auto.
Qed.

(** X2. With the speed factor 1.0 of the sketch, the dwell
    [sampleDwellMillis] returns for every mode and every draw lies in the
    mode's range [[lo, hi]] seconds; dividing by the speed factor scales
    the range: for ANGRY at speed 2.0 the dwell lies in [[5, 6.5]] seconds.
    The call consumes one random draw. *)
Theorem dwell_in_scaled_range (s : State) (w : World) :
  (SPEED_FACTOR w = F32.of_int 1 ->
   exists d, sampleDwellMillis s w = Some (d, with_rng_pos w (S (rng_pos w))) /\
             1000 * fst (DWELL_SECONDS s) <= d <= 1000 * snd (DWELL_SECONDS s)) /\
  (SPEED_FACTOR w = F32.of_int 2 ->
   exists d, sampleDwellMillis ANGRY w = Some (d, with_rng_pos w (S (rng_pos w))) /\
             5000 <= d <= 6500).
Proof.
  split; intros Hs.
  - destruct (dwell_run 1 s w (dwell_in_range_speed_1 s) Hs) as (d & Hd & Hb).
    exists d. split; [exact Hd|lia].
  - destruct (dwell_run 2 ANGRY w dwell_in_range_angry_2 Hs) as (d & Hd & Hb).
    exists d. split; [exact Hd|]. cbn [DWELL_SECONDS fst snd] in Hb. lia.
Qed.

Lemma clamped_ge (period : Z) : 10 <= clamped period.
Proof. unfold clamped. destruct (Z.ltb_spec period 10); lia. Qed.

Lemma phase_of_defined (t period : Z) : period <> 0 -> phase_of t period <> None.
Proof.
  intros Hp. unfold phase_of, urem. destruct (Z.eqb_spec period 0); [contradiction|discriminate].
Qed.

Lemma phase_of_zero (t : Z) : phase_of t 0 = None.
Proof. reflexivity. Qed.

Lemma phase_of_periodic (t period k : Z) :
  0 <= t -> 0 <= k -> 0 < period -> t + k * period < 2 ^ 32 ->
  phase_of (to_uint32 (t + k * period)) period = phase_of t period.
Proof.
  intros Ht Hk Hp Hno. unfold to_uint32, wrap_unsigned.
  rewrite Z.mod_small by nia.
  unfold phase_of, urem. destruct (Z.eqb_spec period 0); [reflexivity|].
  rewrite Z.mod_add by assumption. reflexivity.
Qed.

Section WaveformProperties.

Variable sinf : float -> float.
Variable powf : float -> float -> float.

(** X3. A waveform repeats with the period it uses: the
    clamped period [max(period, 10)] for triangle, sine and square, and
    [period] itself (when positive) for the pulse, as long as the shifted
    time does not wrap around 32 bits; the square wave is 0 or 1. *)
Theorem waveform_periodic (t period k : Z) (minL maxL duty : float) :
  0 <= t -> 0 <= k ->
  (t + k * clamped period < 2 ^ 32 ->
   triWave (to_uint32 (t + k * clamped period)) period minL maxL = triWave t period minL maxL /\
   sineWave sinf (to_uint32 (t + k * clamped period)) period minL maxL
   = sineWave sinf t period minL maxL /\
   squareWave (to_uint32 (t + k * clamped period)) period duty = squareWave t period duty) /\
  (0 < period -> t + k * period < 2 ^ 32 ->
   heartPulse sinf powf (to_uint32 (t + k * period)) period = heartPulse sinf powf t period) /\
  (squareWave t period duty = Some (F32.of_int 1) \/
   squareWave t period duty = Some (F32.of_int 0)).
Proof.
  intros Ht Hk. pose proof (clamped_ge period) as Hc. split; [|split].
  - intros Hno. unfold triWave, sineWave, squareWave. fold (clamped period).
    rewrite (phase_of_periodic t (clamped period) k) by lia. auto.
  - intros Hp Hno. unfold heartPulse. rewrite (phase_of_periodic t period k) by lia. reflexivity.
  - unfold squareWave. fold (clamped period).
    destruct (phase_of t (clamped period)) as [ph|] eqn:E.
    + destruct (ph <? duty)%f32; auto.
    + exfalso. revert E. apply phase_of_defined. lia.
Qed.

(** X4. The triangle, sine and square waves clamp the period and are defined
    for every time and period; [heartPulse] does not clamp: its phase is a
    remainder by [period], undefined at [period = 0]. *)
Theorem heartPulse_period_unclamped (t period : Z) (minL maxL duty : float) :
  triWave t period minL maxL <> None /\
  sineWave sinf t period minL maxL <> None /\
  squareWave t period duty <> None /\
  heartPulse sinf powf t 0 = None.
Proof.
  pose proof (clamped_ge period) as Hc.
  pose proof (phase_of_defined t (clamped period) ltac:(lia)) as Hd.
  unfold triWave, sineWave, squareWave. fold (clamped period).
  destruct (phase_of t (clamped period)); [|contradiction].
  repeat split; discriminate.
Qed.

End WaveformProperties.

Lemma waveform_periodic_witness :
  0 <= 7 /\ 0 <= 3 /\ 7 + 3 * clamped 12 < 2 ^ 32 /\
  triWave (to_uint32 (7 + 3 * clamped 12)) 12 (F32.lit 15 100) (F32.lit 85 100)
  = triWave 7 12 (F32.lit 15 100) (F32.lit 85 100).
Proof.
  assert (H0 : 0 <= 7) by lia. assert (H1 : 0 <= 3) by lia.
  assert (H2 : 7 + 3 * clamped 12 < 2 ^ 32) by (vm_compute; reflexivity).
  split; [exact H0|]. split; [exact H1|]. split; [exact H2|].
  exact (proj1 (proj1 (waveform_periodic (fun x => x) (fun x _ => x) 7 12 3
                          (F32.lit 15 100) (F32.lit 85 100) (F32.lit 45 100) H0 H1) H2)).
Defined.

(** ** Frame and trace reasoning for the sketch *)

Section Preservation.

Context {B : Type} (f : World -> B).

Lemma preserves_ret {A} (a : A) : preserves f (ret a).
Proof. intros w a' w' H. injection H as _ <-. reflexivity. Qed.

Lemma preserves_bind {A C} (m : M A) (k : A -> M C) :
  preserves f m -> (forall a, preserves f (k a)) -> preserves f (bind m k).
Proof.
  intros Hm Hk w c w'' H. unfold bind in H.
  destruct (m w) as [[a w']|] eqn:E; [|discriminate].
  rewrite (Hk a _ _ _ H). exact (Hm _ _ _ E).
Qed.

Lemma preserves_defined {A} (o : option A) : preserves f (defined o).
Proof. intros w a w' H. unfold defined in H. destruct o; [|discriminate]. injection H as _ <-. reflexivity. Qed.

Lemma preserves_get {A} (g : World -> A) : preserves f (get g).
Proof. intros w a w' H. injection H as _ <-. reflexivity. Qed.

Lemma preserves_analogRead (a : AnalogIn) : preserves f (analogRead a).
Proof. intros w x w' H. injection H as _ <-. reflexivity. Qed.

Lemma preserves_emit (e : Event) : ignores_trace f -> preserves f (emit e).
Proof. intros Hf w a w' H. injection H as _ <-. apply Hf. Qed.

Lemma preserves_millis : ignores_trace f -> preserves f millis.
Proof. intros Hf w a w' H. injection H as _ <-. apply Hf. Qed.

Lemma preserves_delay (ms : Z) : ignores_trace f -> ignores_clock f -> preserves f (delay ms).
Proof. intros Hf Hc w a w' H. injection H as _ <-. rewrite Hf. apply Hc. Qed.

Lemma preserves_if {A} (c : bool) (m1 m2 : M A) :
  preserves f m1 -> preserves f m2 -> preserves f (if c then m1 else m2).
Proof. destruct c; auto. Qed.

Lemma preserves_for_each {A} (xs : list A) (body : A -> M unit) :
  (forall x, preserves f (body x)) -> preserves f (for_each xs body).
Proof.
  intros Hb. induction xs as [|x xs IH]; simpl.
  - apply preserves_ret.
  - apply preserves_bind; [apply Hb|intros _; exact IH].
Qed.

Lemma preserves_setPressureMiddle (d a b : float) :
  ignores_trace f -> ignores_prev f -> preserves f (setPressureMiddle d a b).
Proof.
  intros Ht Hp w u w' H. rewrite setPressureMiddle_run in H.
  destruct (channel_events _ _ _ _ _); [|discriminate].
  injection H as _ <-. rewrite Hp. apply Ht.
Qed.

Lemma preserves_setPressureLeaves (d a b : float) :
  ignores_trace f -> preserves f (setPressureLeaves d a b).
Proof.
  intros Ht w u w' H. rewrite setPressureLeaves_run in H.
  destruct (channel_events _ _ _ _ _); [|discriminate].
  injection H as _ <-. apply Ht.
Qed.

Lemma preserves_scaled (ms : Z) : preserves f (scaled ms).
Proof. unfold scaled. apply preserves_bind; [apply preserves_get|intros; apply preserves_defined]. Qed.

Lemma preserves_ledsFill (r g b br : Z) : ignores_trace f -> preserves f (ledsFill r g b br).
Proof.
  intros Ht. unfold ledsFill, setBrightness, setPixelColor, show.
  apply preserves_bind; [apply preserves_emit, Ht|intros _].
  apply preserves_bind; [|intros _; apply preserves_emit, Ht].
  apply preserves_for_each. intros i. apply preserves_emit, Ht.
Qed.

End Preservation.

Section Emission.

Context (Q : Event -> Prop).

Lemma emits_ret {A} (a : A) : emits Q (ret a).
Proof. intros w a' w' H. injection H as _ <-. exists []. rewrite app_nil_r. auto. Qed.

Lemma emits_bind {A C} (m : M A) (k : A -> M C) :
  emits Q m -> (forall a, emits Q (k a)) -> emits Q (bind m k).
Proof.
  intros Hm Hk w c w'' H. unfold bind in H.
  destruct (m w) as [[a w']|] eqn:E; [|discriminate].
  destruct (Hm _ _ _ E) as (e1 & T1 & Q1). destruct (Hk a _ _ _ H) as (e2 & T2 & Q2).
  exists (e1 ++ e2). rewrite T2, T1, app_assoc. split; [reflexivity|].
  apply Forall_app; auto.
Qed.

Lemma emits_silent {A} (m : M A) : preserves trace m -> emits Q m.
Proof.
  intros Hp w a w' H. exists []. rewrite app_nil_r. split; [apply (Hp _ _ _ H)|constructor].
Qed.

Lemma emits_emit (e : Event) : Q e -> emits Q (emit e).
Proof.
  intros He w a w' H. injection H as _ <-. exists [e]. split; [reflexivity|auto].
Qed.

Lemma emits_for_each {A} (xs : list A) (body : A -> M unit) :
  (forall x, emits Q (body x)) -> emits Q (for_each xs body).
Proof.
  intros Hb. induction xs as [|x xs IH]; simpl.
  - apply emits_ret.
  - apply emits_bind; [apply Hb|intros _; exact IH].
Qed.

End Emission.

Lemma bind_inv {A C} (m : M A) (k : A -> M C) (w : World) (c : C) (w'' : World) :
  bind m k w = Some (c, w'') -> exists a w', m w = Some (a, w') /\ k a w' = Some (c, w'').
Proof.
  unfold bind. destruct (m w) as [[a w']|]; [|discriminate]. intros H. exists a, w'. auto.
Qed.

Lemma ignores_trace_current : ignores_trace current.
Proof. intros w t. reflexivity. Qed.

Lemma ignores_prev_current : ignores_prev current.
Proof. intros w t. reflexivity. Qed.

Lemma ignores_clock_current : ignores_clock current.
Proof. intros w t. reflexivity. Qed.

Lemma channel_events_not_millis pumpPin valvePin in_max pumpLo error evs :
  channel_events pumpPin valvePin in_max pumpLo error = Some evs -> Forall not_millis evs.
Proof.
  unfold channel_events. intros H.
  destruct (error <? _)%f32.
  - destruct (F32.to_long _); [|discriminate]. destruct (map _ _ _ _ _); [|discriminate].
    injection H as <-. repeat constructor; intros t; discriminate.
  - destruct (_ <? error)%f32.
    + destruct (F32.to_long _); [|discriminate]. destruct (map _ _ _ _ _); [|discriminate].
      injection H as <-. repeat constructor; intros t; discriminate.
    + injection H as <-. repeat constructor; intros t; discriminate.
Qed.

Lemma emits_setPressureMiddle (d a b : float) : emits not_millis (setPressureMiddle d a b).
Proof.
  intros w u w' H. rewrite setPressureMiddle_run in H.
  destruct (channel_events _ _ _ _ _) as [evs|] eqn:E; [|discriminate].
  injection H as _ <-. exists evs. split; [reflexivity|].
  eapply channel_events_not_millis; exact E.
Qed.

Lemma emits_setPressureLeaves (d a b : float) : emits not_millis (setPressureLeaves d a b).
Proof.
  intros w u w' H. rewrite setPressureLeaves_run in H.
  destruct (channel_events _ _ _ _ _) as [evs|] eqn:E; [|discriminate].
  injection H as _ <-. exists evs. split; [reflexivity|].
  eapply channel_events_not_millis; exact E.
Qed.

Lemma emits_ledsFill (r g b br : Z) : emits not_millis (ledsFill r g b br).
Proof.
  unfold ledsFill, setBrightness, setPixelColor, show.
  apply emits_bind; [apply emits_emit; intros t; discriminate|intros _].
  apply emits_bind; [|intros _; apply emits_emit; intros t; discriminate].
  apply emits_for_each. intros i. apply emits_emit. intros t; discriminate.
Qed.

Lemma setup_current (w w' : World) : setup w = Some (tt, w') -> current w' = NEUTRAL.
Proof.
  unfold setup, bind, analogWrite, show, setBrightness, emit, analogRead, modify, get.
  cbn [current with_trace with_current].
  unfold enterState, bind, sampleDwellMillis, bind, get, random.
  cbn [Z.leb Z.compare].
  unfold defined. destruct (sampleDwellMillis_of _ _ _); [|discriminate].
  unfold millis, modify, emit. intros H. injection H as <-. reflexivity.
Qed.

Section Driver.

Variable sinf : float -> float.
Variable powf : float -> float -> float.

Lemma preserves_runNeutral {B} (f : World -> B) (now : Z) :
  ignores_trace f -> ignores_prev f -> preserves f (runNeutral sinf now).
Proof.
  intros Ht Hp. unfold runNeutral.
  apply preserves_bind; [apply preserves_scaled|intros period].
  apply preserves_bind; [apply preserves_defined|intros baseL].
  apply preserves_bind; [apply preserves_setPressureMiddle; assumption|intros _].
  apply preserves_bind; [apply preserves_setPressureLeaves; assumption|intros _].
  apply preserves_ledsFill; assumption.
Qed.

Lemma emits_runNeutral (now : Z) : emits not_millis (runNeutral sinf now).
Proof.
  unfold runNeutral.
  apply emits_bind; [apply emits_silent, preserves_scaled|intros period].
  apply emits_bind; [apply emits_silent, preserves_defined|intros baseL].
  apply emits_bind; [apply emits_setPressureMiddle|intros _].
  apply emits_bind; [apply emits_setPressureLeaves|intros _].
  apply emits_ledsFill.
Qed.

Lemma loop_inv (w w' : World) :
  loop sinf w = Some (tt, w') ->
  exists w1 w2,
    w1 = with_trace w (trace w ++ [EvMillis (clock w)]) /\
    runNeutral sinf (clock w) w1 = Some (tt, w2) /\
    w' = with_trace (with_clock w2 (to_uint32 (clock w2 + 10))) (trace w2 ++ [EvDelay 10]).
Proof.
  unfold loop, bind, millis. intros H.
  destruct (runNeutral sinf (clock w) _) as [[[] w2]|] eqn:E; [|discriminate].
  unfold delay in H. injection H as <-.
  eexists _, w2. split; [reflexivity|]. split; [exact E|reflexivity].
Qed.

Lemma preserves_loop {B} (f : World -> B) :
  ignores_trace f -> ignores_prev f -> ignores_clock f -> preserves f (loop sinf).
Proof.
  intros Ht Hp Hc. unfold loop.
  apply preserves_bind; [apply preserves_millis, Ht|intros now].
  apply preserves_bind; [apply preserves_runNeutral; assumption|intros _].
  apply preserves_delay; assumption.
Qed.

Lemma preserves_iterations {B} (f : World -> B) (n : nat) :
  ignores_trace f -> ignores_prev f -> ignores_clock f -> preserves f (iterations sinf n).
Proof.
  intros Ht Hp Hc. induction n as [|n IH]; simpl.
  - apply preserves_ret.
  - apply preserves_bind; [apply preserves_loop; assumption|intros _; exact IH].
Qed.

Lemma sketch_eq (n : nat) : sketch sinf n = bind setup (fun _ => iterations sinf n).
Proof. reflexivity. Qed.

(** X5. One iteration of [loop] reads the clock once,
    runs the NEUTRAL behaviour on that reading (the orchestrator's case for
    NEUTRAL), and waits 10 ms; it does not check or advance the state
    machine: the mode, the deadline and the random stream are left as they
    were.  Since [setup] enters NEUTRAL, the behaviour run is that of the
    current mode after any number of iterations. *)
Theorem loop_runs_neutral_only (w : World) :
  loop sinf w = (now <- millis ;; runBehavior sinf powf NEUTRAL now ;; delay 10) w /\
  (forall w', loop sinf w = Some (tt, w') ->
     current w' = current w /\ stateEndMs w' = stateEndMs w /\ rng_pos w' = rng_pos w /\
     exists evs, trace w' = trace w ++ EvMillis (clock w) :: evs ++ [EvDelay 10] /\
                 Forall not_millis evs) /\
  (forall n w', sketch sinf n w = Some (tt, w') -> current w' = NEUTRAL).
Proof.
  split; [reflexivity|]. split.
  - intros w' H.
    split; [exact (preserves_loop current ignores_trace_current ignores_prev_current
                                  ignores_clock_current _ _ _ H)|].
    split; [exact (preserves_loop stateEndMs ltac:(easy) ltac:(easy) ltac:(easy) _ _ _ H)|].
    split; [exact (preserves_loop rng_pos ltac:(easy) ltac:(easy) ltac:(easy) _ _ _ H)|].
    destruct (loop_inv w w' H) as (w1 & w2 & E1 & E2 & E3).
    destruct (emits_runNeutral _ _ _ _ E2) as (evs & T & Q).
    exists evs. split; [|exact Q].
    rewrite E3. cbn [trace with_trace]. rewrite T, E1. cbn [trace with_trace].
    rewrite <- !app_assoc. reflexivity.
  - intros n w' H. rewrite sketch_eq in H. apply bind_inv in H.
    destruct H as (a & w1 & E & H). destruct a.
    rewrite (preserves_iterations current n ignores_trace_current ignores_prev_current
                                  ignores_clock_current _ _ _ H).
    exact (setup_current _ _ E).
Qed.

End Driver.

(* ------------------------------------------------------------------ *)
(** ** A behaviour call as a function of what it reads *)

Lemma get_bind {A C} (f : World -> A) (k : A -> M C) (w : World) :
  bind (get f) k w = k (f w) w.
Proof. reflexivity. Qed.

Lemma defined_bind {A C} (o : option A) (k : A -> M C) (w : World) :
  bind (defined o) k w = match o with Some a => k a w | None => None end.
Proof. unfold bind, defined. destruct o; reflexivity. Qed.

Lemma scaled_bind {C} (ms : Z) (k : Z -> M C) (w : World) :
  bind (scaled ms) k w
  = match scaled_of (SPEED_FACTOR w) ms with Some v => k v w | None => None end.
Proof.
  unfold scaled, scaled_of, bind, get, defined.
  destruct (F32.to_ulong _); reflexivity.
Qed.

Lemma emit_bind {C} (e : Event) (k : unit -> M C) (w : World) :
  bind (emit e) k w = k tt (with_trace w (trace w ++ [e])).
Proof. reflexivity. Qed.

Lemma with_trace_twice (w : World) (t1 t2 : list Event) :
  with_trace (with_trace w t1) t2 = with_trace w t2.
Proof. reflexivity. Qed.

Lemma with_trace_same (w : World) : with_trace w (trace w) = w.
Proof. destruct w; reflexivity. Qed.

Lemma for_each_emit {A} (xs : list A) (f : A -> Event) (w : World) :
  for_each xs (fun x => emit (f x)) w = Some (tt, with_trace w (trace w ++ List.map f xs)).
Proof.
  revert w. induction xs as [|x xs IH]; intros w; cbn [for_each List.map].
  - rewrite app_nil_r, with_trace_same. reflexivity.
  - rewrite emit_bind, IH. cbn [trace with_trace]. rewrite <- app_assoc. reflexivity.
Qed.

Lemma ledsFill_run (r g b brightness : Z) (w : World) :
  ledsFill r g b brightness w
  = Some (tt, with_trace w (trace w ++ fill_events r g b brightness)).
Proof.
  unfold ledsFill, setBrightness, setPixelColor, show.
  rewrite emit_bind. unfold bind. rewrite for_each_emit.
  unfold emit, fill_events. cbn [trace with_trace].
  rewrite <- !app_assoc. reflexivity.
Qed.


Section Orchestrator.

Variable sinf : float -> float.
Variable powf : float -> float -> float.

Lemma runBehavior_levels (s : State) (now : Z) (w : World) :
  runBehavior sinf powf s now w = behaviour_of_levels sinf powf s now w.
Proof.
  unfold behaviour_of_levels. rewrite get_bind, defined_bind.
  destruct s; cbn [runBehavior target_levels];
    [unfold runNeutral|unfold runCalm|unfold runCurious|unfold runAngry|unfold runSad];
    rewrite scaled_bind;
    (destruct (scaled_of (SPEED_FACTOR w) _) as [period|]; cbn [obind]; [|reflexivity]);
    rewrite defined_bind.
  - destruct (sineWave _ _ _ _ _) as [baseL|]; cbn [obind]; reflexivity.
  - destruct (sineWave _ _ _ _ _) as [baseL|]; cbn [obind]; [|reflexivity].
    rewrite scaled_bind.
    destruct (scaled_of (SPEED_FACTOR w) _) as [off|]; cbn [obind]; [|reflexivity].
    rewrite defined_bind.
    destruct (sineWave _ _ _ _ _) as [leavesL|]; cbn [obind]; reflexivity.
  - destruct (triWave _ _ _ _) as [leavesPulse|]; cbn [obind]; reflexivity.
  - destruct (squareWave _ _ _) as [baseL|]; cbn [obind]; reflexivity.
  - destruct (sineWave _ _ _ _ _) as [baseL|]; cbn [obind]; [|reflexivity].
    rewrite scaled_bind.
    destruct (scaled_of (SPEED_FACTOR w) _) as [off|]; cbn [obind]; [|reflexivity].
    rewrite defined_bind.
    destruct (sineWave _ _ _ _ _) as [leavesL|]; cbn [obind]; reflexivity.
Qed.

Lemma for_each_pixels (f : Z -> Z -> Event) (body : Z -> M unit) (xs : list Z) (w : World) :
  (forall i w, body i w = Some (tt, with_trace w (trace w ++ [f (ledChaseIndex w) i]))) ->
  for_each xs body w
  = Some (tt, with_trace w (trace w ++ List.map (f (ledChaseIndex w)) xs)).
Proof.
  intros Hb. revert w. induction xs as [|x xs IH]; intros w; cbn [for_each List.map].
  - rewrite app_nil_r, with_trace_same. reflexivity.
  - unfold bind. rewrite Hb, IH. cbn [trace with_trace ledChaseIndex].
    rewrite <- app_assoc. reflexivity.
Qed.

Lemma curious_pixel_run (i : Z) (w : World) :
  (chase <- get ledChaseIndex ;;
   let idx := to_uint8 (to_uint16 (i + chase / 2) mod NUM_LEDS) in
   let atten := if idx =? i then F32.of_int 1 else F32.lit 25 100 in
   r <- defined (F32.to_uint8 (F32.of_int 220 * atten)%f32) ;;
   g <- defined (F32.to_uint8 (F32.of_int 180 * atten)%f32) ;;
   b <- defined (F32.to_uint8 (F32.of_int 40 * atten)%f32) ;;
   setPixelColor idx {| r := r; g := g; b := b |}) w
  = Some (tt, with_trace w (trace w ++ [curious_pixel (ledChaseIndex w) i])).
Proof.
  rewrite get_bind. cbv zeta. unfold curious_pixel.
  assert (B1 : F32.to_uint8 (F32.of_int 220 * F32.of_int 1)%f32 = Some 220) by (vm_compute; reflexivity).
  assert (B2 : F32.to_uint8 (F32.of_int 180 * F32.of_int 1)%f32 = Some 180) by (vm_compute; reflexivity).
  assert (B3 : F32.to_uint8 (F32.of_int 40 * F32.of_int 1)%f32 = Some 40) by (vm_compute; reflexivity).
  assert (D1 : F32.to_uint8 (F32.of_int 220 * F32.lit 25 100)%f32 = Some 55) by (vm_compute; reflexivity).
  assert (D2 : F32.to_uint8 (F32.of_int 180 * F32.lit 25 100)%f32 = Some 45) by (vm_compute; reflexivity).
  assert (D3 : F32.to_uint8 (F32.of_int 40 * F32.lit 25 100)%f32 = Some 10) by (vm_compute; reflexivity).
  destruct (to_uint8 (to_uint16 (i + ledChaseIndex w / 2) mod NUM_LEDS) =? i).
  - rewrite !defined_bind, B1, B2, B3. reflexivity.
  - rewrite !defined_bind, D1, D2, D3. reflexivity.
Qed.

Lemma angry_pixel_run (i : Z) (w : World) :
  (chase <- get ledChaseIndex ;;
   let on := if i =? chase mod NUM_LEDS then 40 else 0 in
   setPixelColor i {| r := 255; g := 60 + on; b := 0 |}) w
  = Some (tt, with_trace w (trace w ++ [angry_pixel (ledChaseIndex w) i])).
Proof. reflexivity. Qed.

Lemma with_chase_same (w : World) : with_ledChaseIndex w (ledChaseIndex w) = w.
Proof. destruct w; reflexivity. Qed.

(** The LED part of a behaviour, as its frame and the chase index it leaves. *)
Lemma visual_run (s : State) (now : Z) (baseL : float) (w : World) :
  visual sinf powf s now baseL w =
  match led_frame sinf powf (SPEED_FACTOR w) s now (ledChaseIndex w) baseL with
  | Some frame =>
      Some (tt, with_ledChaseIndex (with_trace w (trace w ++ frame))
                                   (next_chase s now (ledChaseIndex w)))
  | None => None
  end.
Proof.
  destruct s; cbn [visual led_frame next_chase].
  - rewrite ledsFill_run.
    rewrite <- (with_chase_same (with_trace w (trace w ++ fill_events 100 100 100 100))) at 1.
    reflexivity.
  - rewrite defined_bind. destruct (hsv _ _ _) as [c|]; cbn [obind]; [|reflexivity].
    rewrite defined_bind. destruct (F32.to_uint8 _) as [bright|]; cbn [obind]; [|reflexivity].
    rewrite ledsFill_run.
    rewrite <- (with_chase_same (with_trace w _)) at 1. reflexivity.
  - unfold setBrightness, show. rewrite emit_bind. unfold bind at 1.
    rewrite (for_each_pixels curious_pixel) by (intros; apply curious_pixel_run).
    rewrite emit_bind. unfold modify. cbn [trace with_trace ledChaseIndex].
    rewrite <- !app_assoc. reflexivity.
  - rewrite scaled_bind. destruct (scaled_of _ _) as [hbPeriod|]; cbn [obind]; [|reflexivity].
    rewrite defined_bind. destruct (heartPulse _ _ _ _) as [hb|]; cbn [obind]; [|reflexivity].
    rewrite defined_bind. destruct (F32.to_uint8 _) as [brightness|]; cbn [obind]; [|reflexivity].
    unfold setBrightness, show. rewrite emit_bind. unfold bind at 1.
    rewrite (for_each_pixels angry_pixel) by (intros; apply angry_pixel_run).
    rewrite emit_bind. cbn [trace with_trace ledChaseIndex].
    destruct (now mod 60 =? 0); unfold modify, ret; cbn [trace with_trace ledChaseIndex];
      rewrite <- !app_assoc.
    + reflexivity.
    + rewrite <- (with_chase_same (with_trace w _)) at 1. reflexivity.
  - cbv zeta. rewrite defined_bind. destruct (hsv _ _ _) as [c|]; cbn [obind]; [|reflexivity].
    rewrite defined_bind. destruct (F32.to_uint8 _) as [bright|]; cbn [obind]; [|reflexivity].
    rewrite ledsFill_run.
    rewrite <- (with_chase_same (with_trace w _)) at 1. reflexivity.
Qed.

(** A behaviour as a function of what it reads: the world it leaves is the
    one [behaviour_result sinf powf] computes. *)
Lemma runBehavior_result (s : State) (now : Z) (w : World) :
  runBehavior sinf powf s now w =
  match behaviour_result sinf powf s now w with
  | Some w' => Some (tt, w')
  | None => None
  end.
Proof.
  rewrite runBehavior_levels. unfold behaviour_of_levels, behaviour_result.
  rewrite get_bind, defined_bind.
  destruct (target_levels sinf (SPEED_FACTOR w) s now) as [[baseL leavesL]|]; cbn [obind fst snd];
    [|reflexivity].
  unfold bind at 1. rewrite setPressureMiddle_run.
  destruct (channel_events PIN_PUMP_BASE _ _ _ _) as [regM|]; cbn [obind]; [|reflexivity].
  unfold bind at 1. rewrite setPressureLeaves_run.
  unfold errorLeaves at 1. cbn [adc with_prevDesiredPMiddle with_trace].
  fold (errorLeaves leavesL w).
  destruct (channel_events PIN_PUMP_LEAVES _ _ _ _) as [regL|]; cbn [obind]; [|reflexivity].
  rewrite visual_run.
  cbn [SPEED_FACTOR ledChaseIndex trace with_prevDesiredPMiddle with_trace].
  destruct (led_frame sinf powf _ _ _ _ _) as [frame|]; cbn [obind]; [|reflexivity].
  unfold with_ledChaseIndex, with_trace, with_prevDesiredPMiddle.
  cbn [SPEED_FACTOR current stateEndMs lastUpdateMs prevDesiredPMiddle ledChaseIndex clock adc
       rng rng_pos trace].
  rewrite <- !app_assoc. reflexivity.
Qed.

(** X6. A behaviour never touches the state machine: whatever the mode and
    the clock reading, a call that returns leaves the mode, the deadline,
    the clock, the random stream and the speed factor as they were.  It
    stores the base sensor reading, and it moves the chase index as the
    mode prescribes: CURIOUS steps it modulo 64, ANGRY increments it when
    the clock reading is a multiple of 60, the others leave it. *)
Theorem behaviour_frame (s : State) (now : Z) (w w' : World) :
  runBehavior sinf powf s now w = Some (tt, w') ->
  current w' = current w /\ stateEndMs w' = stateEndMs w /\
  lastUpdateMs w' = lastUpdateMs w /\ clock w' = clock w /\
  rng_pos w' = rng_pos w /\ SPEED_FACTOR w' = SPEED_FACTOR w /\
  prevDesiredPMiddle w' = F32.of_int (to_int16 (adc w A1)) /\
  ledChaseIndex w' = next_chase s now (ledChaseIndex w).
Proof.
  rewrite runBehavior_result. unfold behaviour_result.
  destruct (target_levels sinf _ _ _) as [levels|]; cbn [obind]; [|discriminate].
  destruct (channel_events PIN_PUMP_BASE _ _ _ _) as [regM|]; cbn [obind]; [|discriminate].
  destruct (channel_events PIN_PUMP_LEAVES _ _ _ _) as [regL|]; cbn [obind]; [|discriminate].
  destruct (led_frame sinf powf _ _ _ _ _) as [frame|]; cbn [obind]; [|discriminate].
  intros H. injection H as <-.
  cbn [current stateEndMs lastUpdateMs clock rng_pos SPEED_FACTOR prevDesiredPMiddle
       ledChaseIndex].
  repeat split; reflexivity.
Qed.

(** The events of a behaviour call. *)
Lemma behaviour_events (s : State) (now : Z) (w : World) :
  newEvents (runBehavior sinf powf s now) w =
  obind (target_levels sinf (SPEED_FACTOR w) s now) (fun levels =>
  obind (channel_events PIN_PUMP_BASE PIN_VALVE_BASE 110 50 (errorMiddle (fst levels) w))
        (fun regM =>
  obind (channel_events PIN_PUMP_LEAVES PIN_VALVE_LEAVES 600 100 (errorLeaves (snd levels) w))
        (fun regL =>
  obind (led_frame sinf powf (SPEED_FACTOR w) s now (ledChaseIndex w) (fst levels)) (fun frame =>
  Some (regM ++ regL ++ frame))))).
Proof.
  unfold newEvents. rewrite runBehavior_result. unfold behaviour_result.
  destruct (target_levels sinf _ _ _) as [levels|]; cbn [obind]; [|reflexivity].
  destruct (channel_events PIN_PUMP_BASE _ _ _ _) as [regM|]; cbn [obind]; [|reflexivity].
  destruct (channel_events PIN_PUMP_LEAVES _ _ _ _) as [regL|]; cbn [obind]; [|reflexivity].
  destruct (led_frame sinf powf _ _ _ _ _) as [frame|]; cbn [obind]; [|reflexivity].
  cbn [trace]. rewrite skipn_app_length. reflexivity.
Qed.

Lemma led_frame_chase_free (speed : float) (s : State) (now c1 c2 : Z) (baseL : float) :
  s = NEUTRAL \/ s = CALM \/ s = SAD ->
  led_frame sinf powf speed s now c1 baseL = led_frame sinf powf speed s now c2 baseL.
Proof. intros [Hs|[Hs|Hs]]; subst s; reflexivity. Qed.

(** X7. A behaviour reads nothing but the speed factor, the two sensor
    inputs and, for CURIOUS and ANGRY, the LED chase index: in two worlds
    that agree on these (whatever their traces, clocks, modes, deadlines and
    random streams) a call at the same clock reading emits the same events. *)
Theorem behaviour_reads_only (s : State) (now : Z) (w1 w2 : World) :
  SPEED_FACTOR w1 = SPEED_FACTOR w2 ->
  adc w1 A1 = adc w2 A1 -> adc w1 A2 = adc w2 A2 ->
  ledChaseIndex w1 = ledChaseIndex w2 \/ s = NEUTRAL \/ s = CALM \/ s = SAD ->
  newEvents (runBehavior sinf powf s now) w1 = newEvents (runBehavior sinf powf s now) w2.
Proof.
  intros Hs H1 H2 Hc. rewrite !behaviour_events.
  unfold errorMiddle, errorLeaves. rewrite Hs, H1, H2.
  destruct (target_levels sinf _ _ _) as [levels|]; cbn [obind]; [|reflexivity].
  destruct (channel_events PIN_PUMP_BASE _ _ _ _) as [regM|]; cbn [obind]; [|reflexivity].
  destruct (channel_events PIN_PUMP_LEAVES _ _ _ _) as [regL|]; cbn [obind]; [|reflexivity].
  destruct Hc as [Hc|Hc].
  - rewrite Hc. reflexivity.
  - rewrite (led_frame_chase_free _ s now (ledChaseIndex w1) (ledChaseIndex w2) _ Hc).
    reflexivity.
Qed.

Lemma pinWrites_app (pin : Z) (a b : list Event) :
  pinWrites pin (a ++ b) = pinWrites pin a ++ pinWrites pin b.
Proof. unfold pinWrites. apply flat_map_app. Qed.

Lemma pinWrites_map_silent {A} (pin : Z) (f : A -> Event) (xs : list A) :
  (forall x, pinWrites pin [f x] = []) -> pinWrites pin (List.map f xs) = [].
Proof.
  intros Hf. induction xs as [|x xs IH]; [reflexivity|].
  change (List.map f (x :: xs)) with ([f x] ++ List.map f xs).
  rewrite pinWrites_app, Hf, IH. reflexivity.
Qed.

Lemma led_indices_length : List.length led_indices = 16%nat.
Proof. reflexivity. Qed.

Lemma pixels_frame (pin brightness : Z) (f : Z -> Event) :
  (forall x, pinWrites pin [f x] = []) ->
  pinWrites pin (EvSetBrightness brightness :: List.map f led_indices ++ [EvShow]) = [] /\
  List.length (EvSetBrightness brightness :: List.map f led_indices ++ [EvShow]) = 18%nat.
Proof.
  intros Hf. split.
  - change (EvSetBrightness brightness :: List.map f led_indices ++ [EvShow])
      with ([EvSetBrightness brightness] ++ List.map f led_indices ++ [EvShow]).
    rewrite !pinWrites_app, pinWrites_map_silent by exact Hf. reflexivity.
  - cbn [List.length]. rewrite length_app, length_map, led_indices_length. reflexivity.
Qed.

Lemma Some_inj {A} (x y : A) : Some x = Some y -> x = y.
Proof. congruence. Qed.

Lemma led_frame_shape (pin : Z) (speed : float) (s : State) (now chase : Z) (baseL : float)
      (frame : list Event) :
  led_frame sinf powf speed s now chase baseL = Some frame ->
  pinWrites pin frame = [] /\ List.length frame = 18%nat.
Proof.
  destruct s; cbn [led_frame]; unfold fill_events.
  - intros H. apply Some_inj in H. subst frame. apply pixels_frame. reflexivity.
  - destruct (hsv _ _ _) as [c|]; cbn [obind]; [|discriminate].
    destruct (F32.to_uint8 _) as [bright|]; cbn [obind]; [|discriminate].
    intros H. apply Some_inj in H. subst frame. apply pixels_frame. reflexivity.
  - intros H. apply Some_inj in H. subst frame. apply pixels_frame. reflexivity.
  - destruct (scaled_of _ _) as [p|]; cbn [obind]; [|discriminate].
    destruct (heartPulse _ _ _ _) as [hb|]; cbn [obind]; [|discriminate].
    destruct (F32.to_uint8 _) as [br|]; cbn [obind]; [|discriminate].
    intros H. apply Some_inj in H. subst frame. apply pixels_frame. reflexivity.
  - cbv zeta. destruct (hsv _ _ _) as [c|]; cbn [obind]; [|discriminate].
    destruct (F32.to_uint8 _) as [bright|]; cbn [obind]; [|discriminate].
    intros H. apply Some_inj in H. subst frame. apply pixels_frame. reflexivity.
Qed.

Lemma channel_events_shape (pin pumpPin valvePin in_max pumpLo : Z) (error : float)
      (evs : list Event) :
  channel_events pumpPin valvePin in_max pumpLo error = Some evs ->
  List.length evs = 2%nat /\ (pin <> pumpPin -> pin <> valvePin -> pinWrites pin evs = []).
Proof.
  intros H. unfold channel_events in H.
  assert (Hp : pin <> pumpPin -> (pumpPin =? pin) = false) by (intros; apply Z.eqb_neq; congruence).
  assert (Hv : pin <> valvePin -> (valvePin =? pin) = false) by (intros; apply Z.eqb_neq; congruence).
  destruct (error <? _)%f32.
  - destruct (F32.to_long _); [|discriminate]. destruct (map _ _ _ _ _); [|discriminate].
    injection H as <-. split; [reflexivity|]. intros N1 N2.
    rewrite pinWrites_pair, Hp, Hv by assumption. reflexivity.
  - destruct (_ <? error)%f32.
    + destruct (F32.to_long _); [|discriminate]. destruct (map _ _ _ _ _); [|discriminate].
      injection H as <-. split; [reflexivity|]. intros N1 N2.
      rewrite pinWrites_pair, Hp, Hv by assumption. reflexivity.
    + injection H as <-. split; [reflexivity|]. intros N1 N2.
      rewrite pinWrites_pair, Hp, Hv by assumption. reflexivity.
Qed.

(** X8. Every behaviour call that is defined emits 22 events (two writes
    per channel, then an LED frame of a brightness, 16 pixels and one show),
    and over the whole call each channel has one pump write and one valve
    write, at most one of them nonzero. *)
Theorem behaviour_call_exclusive (s : State) (now : Z) (w : World) (evs : list Event) :
  newEvents (runBehavior sinf powf s now) w = Some evs ->
  exclusive PIN_PUMP_BASE PIN_VALVE_BASE evs /\
  exclusive PIN_PUMP_LEAVES PIN_VALVE_LEAVES evs /\
  List.length evs = 22%nat.
Proof.
  rewrite behaviour_events.
  destruct (target_levels sinf _ _ _) as [levels|]; cbn [obind]; [|discriminate].
  destruct (channel_events PIN_PUMP_BASE _ _ _ _) as [regM|] eqn:EM; cbn [obind]; [|discriminate].
  destruct (channel_events PIN_PUMP_LEAVES _ _ _ _) as [regL|] eqn:EL; cbn [obind]; [|discriminate].
  destruct (led_frame sinf powf _ _ _ _ _) as [frame|] eqn:EF; cbn [obind]; [|discriminate].
  intros H. injection H as <-.
  destruct (channel_events_exclusive PIN_PUMP_BASE PIN_VALVE_BASE _ _ _ _ ltac:(discriminate) EM) as (pm & vm & Pm & Vm & Xm).
  destruct (channel_events_exclusive PIN_PUMP_LEAVES PIN_VALVE_LEAVES _ _ _ _ ltac:(discriminate) EL) as (pl & vl & Pl & Vl & Xl).
  destruct (channel_events_shape PIN_PUMP_BASE _ _ _ _ _ _ EL) as [LenL OffLp].
  destruct (channel_events_shape PIN_VALVE_BASE _ _ _ _ _ _ EL) as [_ OffLv].
  destruct (channel_events_shape PIN_PUMP_LEAVES _ _ _ _ _ _ EM) as [LenM OffMp].
  destruct (channel_events_shape PIN_VALVE_LEAVES _ _ _ _ _ _ EM) as [_ OffMv].
  split; [|split].
  - exists pm, vm. rewrite !pinWrites_app, Pm, Vm.
    rewrite OffLp, OffLv by discriminate.
    rewrite (proj1 (led_frame_shape PIN_PUMP_BASE _ _ _ _ _ _ EF)).
    rewrite (proj1 (led_frame_shape PIN_VALVE_BASE _ _ _ _ _ _ EF)). auto.
  - exists pl, vl. rewrite !pinWrites_app, Pl, Vl.
    rewrite OffMp, OffMv by discriminate.
    rewrite (proj1 (led_frame_shape PIN_PUMP_LEAVES _ _ _ _ _ _ EF)).
    rewrite (proj1 (led_frame_shape PIN_VALVE_LEAVES _ _ _ _ _ _ EF)). auto.
  - rewrite !length_app, LenM, LenL, (proj2 (led_frame_shape 0 _ _ _ _ _ _ EF)). reflexivity.
Qed.

Lemma scaled_of_zero_speed (sg : bool) (ms : Z) :
  ms = 8000 \/ ms = 1200 \/ ms = 900 \/ ms = 12000 -> scaled_of (S754_zero sg) ms = None.
Proof. intros [->|[->|[->| ->]]]; destruct sg; vm_compute; reflexivity. Qed.

(** X9. Speed factors the waveform periods cannot take: when
    [500 / SPEED_FACTOR] truncates to 0 (any factor above 500) the ANGRY
    behaviour is undefined, its heartbeat taking a remainder by zero; and
    with a zero speed factor no behaviour is defined. *)
Theorem behaviour_undefined_at_speed (s : State) (now : Z) (w : World) :
  (scaled_of (SPEED_FACTOR w) 500 = Some 0 -> runBehavior sinf powf ANGRY now w = None) /\
  (forall sg, SPEED_FACTOR w = S754_zero sg -> runBehavior sinf powf s now w = None).
Proof.
  split.
  - intros H0. rewrite runBehavior_result. unfold behaviour_result.
    destruct (target_levels sinf _ _ _) as [levels|]; cbn [obind]; [|reflexivity].
    destruct (channel_events PIN_PUMP_BASE _ _ _ _) as [regM|]; cbn [obind]; [|reflexivity].
    destruct (channel_events PIN_PUMP_LEAVES _ _ _ _) as [regL|]; cbn [obind]; [|reflexivity].
    cbn [led_frame]. rewrite H0. reflexivity.
  - intros sg Hs. rewrite runBehavior_result. unfold behaviour_result. rewrite Hs.
    destruct s; cbn [target_levels]; rewrite scaled_of_zero_speed by tauto; reflexivity.
Qed.

End Orchestrator.

Lemma behaviour_reads_only_witness :
  SPEED_FACTOR (speed_world (F32.of_int 1) 3 100) = SPEED_FACTOR (example_world 60 60) /\
  adc (speed_world (F32.of_int 1) 3 100) A1 = adc (example_world 60 60) A1 /\
  adc (speed_world (F32.of_int 1) 3 100) A2 = adc (example_world 60 60) A2 /\
  newEvents (runBehavior flat_sinf flat_powf CALM 2000) (speed_world (F32.of_int 1) 3 100)
  = newEvents (runBehavior flat_sinf flat_powf CALM 2000) (example_world 60 60).
Proof.
  assert (Hs : SPEED_FACTOR (speed_world (F32.of_int 1) 3 100)
               = SPEED_FACTOR (example_world 60 60)) by reflexivity.
  assert (H1 : adc (speed_world (F32.of_int 1) 3 100) A1 = adc (example_world 60 60) A1)
    by reflexivity.
  assert (H2 : adc (speed_world (F32.of_int 1) 3 100) A2 = adc (example_world 60 60) A2)
    by reflexivity.
  split; [exact Hs|]. split; [exact H1|]. split; [exact H2|].
  exact (behaviour_reads_only flat_sinf flat_powf CALM 2000 _ _ Hs H1 H2
           (or_intror (or_intror (or_introl eq_refl)))).
Defined.

Lemma behaviour_call_exclusive_witness :
  newEvents (runBehavior flat_sinf flat_powf NEUTRAL 100) (example_world 0 1023)
  = Some ([EvAnalogWrite PIN_PUMP_BASE 186; EvAnalogWrite PIN_VALVE_BASE 0;
           EvAnalogWrite PIN_VALVE_LEAVES 270; EvAnalogWrite PIN_PUMP_LEAVES 0]
          ++ fill_events 100 100 100 100) /\
  exclusive PIN_PUMP_BASE PIN_VALVE_BASE
    ([EvAnalogWrite PIN_PUMP_BASE 186; EvAnalogWrite PIN_VALVE_BASE 0;
      EvAnalogWrite PIN_VALVE_LEAVES 270; EvAnalogWrite PIN_PUMP_LEAVES 0]
     ++ fill_events 100 100 100 100).
Proof.
  assert (H : newEvents (runBehavior flat_sinf flat_powf NEUTRAL 100) (example_world 0 1023)
              = Some ([EvAnalogWrite PIN_PUMP_BASE 186; EvAnalogWrite PIN_VALVE_BASE 0;
                       EvAnalogWrite PIN_VALVE_LEAVES 270; EvAnalogWrite PIN_PUMP_LEAVES 0]
                      ++ fill_events 100 100 100 100)) by (vm_compute; reflexivity).
  split; [exact H|].
  exact (proj1 (behaviour_call_exclusive flat_sinf flat_powf NEUTRAL 100 _ _ H)).
Defined.

Lemma behaviour_undefined_at_speed_witness :
  scaled_of (SPEED_FACTOR (speed_world (F32.of_int 1000) 0 0)) 500 = Some 0 /\
  runBehavior flat_sinf flat_powf ANGRY 100 (speed_world (F32.of_int 1000) 0 0) = None.
Proof.
  assert (H : scaled_of (SPEED_FACTOR (speed_world (F32.of_int 1000) 0 0)) 500 = Some 0)
    by (vm_compute; reflexivity).
  split; [exact H|].
  exact (proj1 (behaviour_undefined_at_speed flat_sinf flat_powf ANGRY 100 _) H).
Defined.

Lemma behaviour_frame_witness :
  exists w',
    runBehavior flat_sinf flat_powf ANGRY 120 (speed_world (F32.of_int 1) 3 120) = Some (tt, w') /\
    (current w' = current (speed_world (F32.of_int 1) 3 120) /\
     stateEndMs w' = stateEndMs (speed_world (F32.of_int 1) 3 120) /\
     lastUpdateMs w' = lastUpdateMs (speed_world (F32.of_int 1) 3 120) /\
     clock w' = clock (speed_world (F32.of_int 1) 3 120) /\
     rng_pos w' = rng_pos (speed_world (F32.of_int 1) 3 120) /\
     SPEED_FACTOR w' = SPEED_FACTOR (speed_world (F32.of_int 1) 3 120) /\
     prevDesiredPMiddle w' = F32.of_int (to_int16 (adc (speed_world (F32.of_int 1) 3 120) A1)) /\
     ledChaseIndex w' = next_chase ANGRY 120 (ledChaseIndex (speed_world (F32.of_int 1) 3 120))).
Proof.
  eexists. split; [vm_compute; reflexivity|].
  apply (behaviour_frame flat_sinf flat_powf ANGRY 120 (speed_world (F32.of_int 1) 3 120)).
  vm_compute. reflexivity.
Defined.

(* ------------------------------------------------------------------ *)
(** ** The clamp, the dwell deadline and the sketch as a whole *)


Lemma SFcompare_antisym (x y : float) :
  SFcompare y x = option_map CompOpp (SFcompare x y).
Proof.
  destruct x as [sx|sx| |sx mx ex], y as [sy|sy| |sy my ey];
    try reflexivity; try (destruct sx; reflexivity); try (destruct sy; reflexivity);
    try (destruct sx, sy; reflexivity).
  unfold SFcompare. destruct sx, sy; cbn [option_map CompOpp]; try reflexivity.
  - rewrite (Z.compare_antisym ex ey). destruct (ex ?= ey); cbn [CompOpp]; try reflexivity.
    rewrite (Pos.compare_cont_antisym mx my Eq). cbn [CompOpp]. reflexivity.
  - rewrite (Z.compare_antisym ex ey). destruct (ex ?= ey); cbn [CompOpp]; try reflexivity.
    rewrite (Pos.compare_cont_antisym mx my Eq). cbn [CompOpp].
    destruct (Pos.compare_cont Eq mx my); reflexivity.
Qed.

Lemma not_ltb_leb (x y : float) :
  SFcompare x y <> None -> (x <? y)%f32 = false -> (y <=? x)%f32 = true.
Proof.
  unfold F32.ltb, F32.leb, SFltb, SFleb. rewrite (SFcompare_antisym x y).
  destruct (SFcompare x y) as [[| |]|]; cbn [option_map CompOpp]; congruence.
Qed.

Lemma compare_const_defined (x : float) (s : bool) (m : positive) (e : Z) :
  x <> S754_nan -> SFcompare x (S754_finite s m e) <> None /\ SFcompare (S754_finite s m e) x <> None.
Proof.
  intros Hx. destruct x as [sx|sx| |sx mx ex]; try contradiction; cbn; split; discriminate.
Qed.

Lemma compare_defined (x y : float) :
  x <> S754_nan -> y <> S754_nan -> SFcompare x y <> None.
Proof.
  intros Hx Hy.
  destruct x as [sx|sx| |sx mx ex], y as [sy|sy| |sy my ey]; try contradiction; cbn; discriminate.
Qed.

Lemma clamp01_inside (x : float) :
  (x <? F32.of_int 0)%f32 = false -> (F32.of_int 1 <? x)%f32 = false -> clamp01 x = x.
Proof. intros E1 E2. unfold clamp01. rewrite E1, E2. reflexivity. Qed.

Lemma clamp01_zero : clamp01 (F32.of_int 0) = F32.of_int 0.
Proof. vm_compute. reflexivity. Qed.

Lemma clamp01_one : clamp01 (F32.of_int 1) = F32.of_int 1.
Proof. vm_compute. reflexivity. Qed.

(** X10. [clamp01] is idempotent, it returns a value between 0 and 1 for
    every argument but NaN (the infinities included), and it hands a NaN
    back unchanged. *)
Theorem clamp01_range (x : float) :
  clamp01 (clamp01 x) = clamp01 x /\
  (x <> S754_nan ->
   (F32.of_int 0 <=? clamp01 x)%f32 = true /\ (clamp01 x <=? F32.of_int 1)%f32 = true) /\
  clamp01 S754_nan = S754_nan.
Proof.
  split; [|split; [|reflexivity]].
  - unfold clamp01 at 2 3.
    destruct (x <? F32.of_int 0)%f32 eqn:E1; [apply clamp01_zero|].
    destruct (F32.of_int 1 <? x)%f32 eqn:E2; [apply clamp01_one|].
    apply clamp01_inside; assumption.
  - intros Hx. unfold clamp01.
    destruct (x <? F32.of_int 0)%f32 eqn:E1; [split; vm_compute; reflexivity|].
    destruct (F32.of_int 1 <? x)%f32 eqn:E2; [split; vm_compute; reflexivity|].
    split.
    + apply not_ltb_leb; [|exact E1]. apply compare_defined; [exact Hx|].
      rewrite zero_eq. discriminate.
    + apply not_ltb_leb; [|exact E2]. apply compare_defined; [|exact Hx].
      rewrite one_eq. discriminate.
Qed.

Lemma In_bytes (m : Z) : 0 <= m <= 255 -> In m bytes.
Proof.
  intros Hm. unfold bytes. apply in_map_iff. exists (Z.to_nat m). split; [lia|].
  apply in_seq. lia.
Qed.

Lemma saturates_all : forallb saturates bytes = true.
Proof. vm_compute. reflexivity. Qed.

Lemma saturates_inv (maxPWM : Z) :
  saturates maxPWM = true ->
  F32.to_uint8 (F32.of_int 0 * F32.of_int maxPWM)%f32 = Some 0 /\
  F32.to_uint8 (F32.of_int 1 * F32.of_int maxPWM)%f32 = Some maxPWM.
Proof.
  unfold saturates.
  destruct (F32.to_uint8 (F32.of_int 0 * _)%f32) as [z|]; [|discriminate].
  destruct (F32.to_uint8 (F32.of_int 1 * _)%f32) as [m|]; [|discriminate].
  intros H. apply andb_true_iff in H. destruct H as [Hz Hm].
  apply Z.eqb_eq in Hz, Hm. subst. auto.
Qed.

Lemma negative_not_above (x : float) (m : positive) (e : Z) :
  (x <? S754_zero false)%f32 = true -> (S754_finite false m e <? x)%f32 = true -> False.
Proof.
  unfold F32.ltb, SFltb.
  destruct x as [s|s| |s mx ex]; try destruct s; cbn [SFcompare];
    intros H1 H2; first [discriminate H1 | discriminate H2].
Qed.

Lemma mul_nan_l (y : float) : (S754_nan * y)%f32 = S754_nan.
Proof. destruct y; reflexivity. Qed.

(** X11. [levelToPWM] saturates: for a [uint8_t] ceiling [maxPWM], every
    level below 0 gives 0 and every level above 1 gives [maxPWM] itself
    (minus and plus infinity included); a NaN level passes the clamp and
    the conversion to [uint8_t] is undefined. *)
Theorem levelToPWM_saturates (level : float) (maxPWM : Z) :
  0 <= maxPWM <= 255 ->
  ((level <? F32.of_int 0)%f32 = true -> levelToPWM level maxPWM = Some 0) /\
  ((F32.of_int 1 <? level)%f32 = true -> levelToPWM level maxPWM = Some maxPWM) /\
  levelToPWM S754_nan maxPWM = None.
Proof.
  intros Hm.
  pose proof saturates_all as Hall. rewrite forallb_forall in Hall.
  destruct (saturates_inv maxPWM (Hall maxPWM (In_bytes maxPWM Hm))) as [H0 H1].
  split; [|split].
  - intros E. unfold levelToPWM, clamp01. rewrite E. exact H0.
  - intros E. unfold levelToPWM, clamp01.
    destruct (level <? F32.of_int 0)%f32 eqn:E0.
    + exfalso. revert E0 E. rewrite zero_eq, one_eq. apply negative_not_above.
    + rewrite E. exact H1.
  - unfold levelToPWM. change (clamp01 S754_nan) with (@S754_nan). rewrite mul_nan_l. reflexivity.
Qed.

Lemma levelToPWM_saturates_witness :
  (F32.lit 3 2 <? F32.of_int 0)%f32 = false /\
  (F32.of_int 1 <? F32.lit 3 2)%f32 = true /\ levelToPWM (F32.lit 3 2) 200 = Some 200.
Proof.
  split; [vm_compute; reflexivity|]. split; [vm_compute; reflexivity|].
  apply (levelToPWM_saturates (F32.lit 3 2) 200); [lia|vm_compute; reflexivity].
Defined.

(* ------------------------------------------------------------------ *)

Lemma dwell_speed_one (t : State) (w : World) :
  SPEED_FACTOR w = F32.of_int 1 ->
  exists d, sampleDwellMillis t w = Some (d, with_rng_pos w (S (rng_pos w))) /\
            1000 * fst (DWELL_SECONDS t) <= d <= 1000 * snd (DWELL_SECONDS t).
Proof.
  intros Hs.
  destruct (dwell_run 1 t w (dwell_in_range_speed_1 t) Hs) as (d & Hd & Hb).
  exists d. split; [exact Hd|lia].
Qed.

Lemma enterState_eq (s : State) :
  enterState s =
  bind (sampleDwellMillis s) (fun dwell =>
  bind millis (fun t =>
  bind (modify (fun w => with_stateEndMs w (to_uint32 (t + dwell)))) (fun _ =>
  emit (EvPrintln (STATE_NAMES s) dwell)))).
Proof. reflexivity. Qed.

Lemma enterState_run (s : State) (w : World) (d : Z) :
  sampleDwellMillis s w = Some (d, with_rng_pos w (S (rng_pos w))) ->
  exists w',
    enterState s w = Some (tt, w') /\
    stateEndMs w' = to_uint32 (clock w + d) /\
    rng_pos w' = S (rng_pos w) /\
    current w' = current w /\ clock w' = clock w /\ SPEED_FACTOR w' = SPEED_FACTOR w /\
    adc w' = adc w /\ lastUpdateMs w' = lastUpdateMs w /\
    trace w' = trace w ++ [EvMillis (clock w); EvPrintln (STATE_NAMES s) d].
Proof.
  intros Hd. rewrite enterState_eq. unfold bind at 1. rewrite Hd.
  unfold bind, millis, modify, emit. eexists. split; [reflexivity|].
  cbn [stateEndMs rng_pos current clock SPEED_FACTOR trace adc lastUpdateMs
       with_trace with_stateEndMs with_rng_pos].
  rewrite <- app_assoc. cbn [app]. repeat split; reflexivity.
Qed.

(** X12. [enterState] at the sketch's speed factor 1.0 always succeeds: it
    draws one random number, sets the deadline to the clock reading plus a
    dwell inside the mode's range (wrapped to 32 bits), prints the mode's
    name with that dwell, and leaves the mode, the clock and the speed
    factor alone. *)
Theorem enterState_sets_deadline (s : State) (w : World) :
  SPEED_FACTOR w = F32.of_int 1 ->
  exists d w',
    enterState s w = Some (tt, w') /\
    1000 * fst (DWELL_SECONDS s) <= d <= 1000 * snd (DWELL_SECONDS s) /\
    stateEndMs w' = to_uint32 (clock w + d) /\
    rng_pos w' = S (rng_pos w) /\
    current w' = current w /\ clock w' = clock w /\ SPEED_FACTOR w' = SPEED_FACTOR w /\
    trace w' = trace w ++ [EvMillis (clock w); EvPrintln (STATE_NAMES s) d].
Proof.
  intros Hs. destruct (dwell_speed_one s w Hs) as (d & Hd & Hb).
  destruct (enterState_run s w d Hd) as (w' & He & Hdl & Hr & Hc & Hk & Hsp & _ & _ & Ht).
  exists d, w'. repeat split; try assumption; lia.
Qed.

Lemma enterState_sets_deadline_witness :
  exists d w',
    enterState ANGRY (example_world 60 60) = Some (tt, w') /\
    1000 * fst (DWELL_SECONDS ANGRY) <= d <= 1000 * snd (DWELL_SECONDS ANGRY) /\
    stateEndMs w' = to_uint32 (clock (example_world 60 60) + d) /\
    rng_pos w' = S (rng_pos (example_world 60 60)) /\
    current w' = current (example_world 60 60) /\
    clock w' = clock (example_world 60 60) /\
    SPEED_FACTOR w' = SPEED_FACTOR (example_world 60 60) /\
    trace w' = trace (example_world 60 60)
               ++ [EvMillis (clock (example_world 60 60)); EvPrintln (STATE_NAMES ANGRY) d].
Proof. apply (enterState_sets_deadline ANGRY (example_world 60 60)). reflexivity. Defined.

(* ------------------------------------------------------------------ *)







Section Lifecycle.

Variable sinf : float -> float.
Variable powf : float -> float -> float.

Hypothesis sinf_bounded : forall x, good 0 (sinf x).







End Lifecycle.




(* ------------------------------------------------------------------ *)
(** ** The CURIOUS pattern *)

Lemma In_led_indices (i : Z) : In i led_indices -> 0 <= i < 16.
Proof. intros H. vm_compute in H. intuition lia. Qed.

Lemma rotated_index (chase i : Z) :
  0 <= i < 16 ->
  to_uint8 (to_uint16 (i + chase / 2) mod NUM_LEDS) = (i + chase / 2) mod 16 /\
  ((i + chase / 2) mod 16 = i <-> (chase / 2) mod 16 = 0).
Proof.
  intros Hi. unfold to_uint8, to_uint16, wrap_unsigned, NUM_LEDS.
  change (2 ^ 16) with (4096 * 16). change (2 ^ 8) with 256.
  set (c := chase / 2).
  assert (E : ((i + c) mod (4096 * 16)) mod 16 = (i + c) mod 16).
  { apply Z.mod_mod_divide. exists 4096. reflexivity. }
  rewrite E.
  pose proof (Z.mod_pos_bound (i + c) 16 ltac:(lia)) as Hb.
  split; [apply Z.mod_small; lia|].
  pose proof (Z.mod_pos_bound c 16 ltac:(lia)) as Hc.
  rewrite <- (Z.add_mod_idemp_r i c 16) by lia.
  destruct (Z_lt_ge_dec (i + c mod 16) 16) as [Hlt|Hge].
  - rewrite Z.mod_small by lia. lia.
  - replace (i + c mod 16) with ((i + c mod 16 - 16) + 1 * 16) by lia.
    rewrite Z.mod_add by lia. rewrite Z.mod_small by lia. lia.
Qed.

Lemma curious_pixel_uniform (chase i : Z) :
  0 <= i < 16 ->
  curious_pixel chase i = EvSetPixelColor ((i + chase / 2) mod 16) (curious_colour chase).
Proof.
  intros Hi. destruct (rotated_index chase i Hi) as [E Hiff].
  unfold curious_pixel, curious_colour. cbv zeta. rewrite E. unfold NUM_LEDS.
  destruct (Z.eqb_spec ((i + chase / 2) mod 16) i) as [He|Hne];
    destruct (Z.eqb_spec ((chase / 2) mod 16) 0) as [Hz|Hnz]; try reflexivity.
  - exfalso. apply Hnz, Hiff, He.
  - exfalso. apply Hne, Hiff, Hz.
Qed.

Section Curious.

Variable sinf : float -> float.
Variable powf : float -> float -> float.

(** X14. The CURIOUS pattern does not rotate a highlight: in every frame all
    16 pixels get the same colour, the full warm yellow when half the chase
    index is a multiple of 16 and the quarter-bright one otherwise; the
    pixels are addressed in rotated order, each once. *)
Theorem curious_frame_uniform (now : Z) (w : World) (evs : list Event) :
  newEvents (runBehavior sinf powf CURIOUS now) w = Some evs ->
  skipn 4 evs =
    EvSetBrightness 60
    :: List.map (fun i => EvSetPixelColor ((i + ledChaseIndex w / 2) mod 16)
                                          (curious_colour (ledChaseIndex w)))
                led_indices
    ++ [EvShow].
Proof.
  rewrite behaviour_events.
  destruct (target_levels _ _ _ _) as [levels|]; cbn [obind]; [|discriminate].
  destruct (channel_events PIN_PUMP_BASE _ _ _ _) as [regM|] eqn:EM; cbn [obind]; [|discriminate].
  destruct (channel_events PIN_PUMP_LEAVES _ _ _ _) as [regL|] eqn:EL; cbn [obind]; [|discriminate].
  cbn [led_frame obind]. intros H. apply Some_inj in H. subst evs.
  destruct (channel_events_shape 0 _ _ _ _ _ _ EM) as [LM _].
  destruct (channel_events_shape 0 _ _ _ _ _ _ EL) as [LL _].
  destruct regM as [|a [|b [|? ?]]]; try discriminate LM.
  destruct regL as [|c [|d [|? ?]]]; try discriminate LL.
  cbn [app skipn]. f_equal. f_equal.
  apply map_ext_in. intros i Hi. apply curious_pixel_uniform, In_led_indices, Hi.
Qed.

End Curious.

Lemma curious_frame_uniform_witness :
  exists evs,
    newEvents (runBehavior flat_sinf flat_powf CURIOUS 100) (speed_world (F32.of_int 1) 3 100)
    = Some evs /\
    skipn 4 evs =
      EvSetBrightness 60
      :: List.map (fun i => EvSetPixelColor ((i + 3 / 2) mod 16) (curious_colour 3)) led_indices
      ++ [EvShow].
Proof.
  eexists. split; [vm_compute; reflexivity|].
  apply (curious_frame_uniform flat_sinf flat_powf 100 (speed_world (F32.of_int 1) 3 100)).
  vm_compute. reflexivity.
Defined.
